(** * WonderBox: mesh loader, vertex deduplication and sphere ray caster

    A shallow embedding of [main.c] and [hash.h].

    - Unsigned 32-bit integers are values of [Z] in [0, 2^32); every
      operation that can overflow is followed by an explicit [wrap32].
    - A C [float] is carried as its IEEE-754 binary32 bit pattern, a [Z] in
      [0, 2^32).  The loader and the hash only move and reinterpret those
      bits; the vector arithmetic of the ray caster decodes them to
      [spec_float], applies the correctly rounded binary32 operation and
      encodes the result.
    - Heap arrays are lists indexed with [!!] and updated with [<[_:=_]>];
      a pointer into the node arena is the index of the node.  In
      [Loader] the three calls of [malloc] are taken to succeed; [Alloc] is
      the loader with the results of the three calls as a parameter.
    - The host is little-endian, as the file format is, and [size_t] has at
      least 32 bits.  The byte sizes passed to [malloc] are taken not to
      wrap in [size_t], as is the case when [size_t] has 64 bits: an
      allocation that succeeds has the [3 * num_tris] cells asked for. *)

From Stdlib Require Import ZArith Lia List Bool Strings.Byte String.
From Stdlib Require Import Floats.SpecFloat.
From stdpp Require Import base list.

Local Open Scope Z_scope.

(** ** Machine integers *)

Definition wrap32 (z : Z) : Z := z mod 2 ^ 32.

Definition is_uint32 (z : Z) : Prop := 0 <= z < 2 ^ 32.

(** ** hash.h *)

Module Hash.

(** [int_hash32]: three rounds of xor-shift and multiply, and a final
    xor-shift. *)
Definition int_hash32 (x : Z) : Z :=
  let x := Z.lxor x (Z.shiftr x 17) in
  let x := wrap32 (x * 0xed5ad4bb) in
  let x := Z.lxor x (Z.shiftr x 11) in
  let x := wrap32 (x * 0xac4c1b51) in
  let x := Z.lxor x (Z.shiftr x 15) in
  let x := wrap32 (x * 0x31848bab) in
  let x := Z.lxor x (Z.shiftr x 14) in
  x.

(** [hash]: the arguments are the bit patterns of the three floats, that is
    [bit_cast(uint32_t, x)] has already been applied. *)
Definition hash (x y z : Z) : Z :=
  let h := 0 in
  let h := int_hash32 (Z.lxor h x) in
  let h := int_hash32 (Z.lxor h y) in
  let h := int_hash32 (Z.lxor h z) in
  h.

(** One xor-shift and multiply round of [int_hash32], by itself. *)
Definition round (k c : Z) (a : Z) : Z :=
  wrap32 (Z.lxor a (Z.shiftr a k) * c).

(** The word [w] with bit [i] inverted. *)
Definition flip_bit (i : Z) (w : Z) : Z := Z.lxor w (2 ^ i).

End Hash.

(** ** Data model of main.c *)

(** A [float] object, as its 32 bits. *)
Definition float := Z.

Record vec3_t := mk_vec3 { x : float; y : float; z : float }.

Record vec3_uint32_hash_table_node_t := mk_node {
  key : vec3_t;
  value : Z;                (* uint32_t *)
  next : option nat         (* NULL, or the arena index of the next node *)
}.

Abbreviation node_t := vec3_uint32_hash_table_node_t.

Record ray_t := mk_ray { origin : vec3_t; direction : vec3_t }.

Record sphere_t := mk_sphere { center : vec3_t; radius : float }.

Record lighting_t := mk_lighting { color : vec3_t; specular : vec3_t }.

Record point_light_t := mk_point_light {
  position : vec3_t;
  light_color : vec3_t;     (* the field [color] of [point_light_t] *)
  power : float
}.

(** ** Single-precision arithmetic *)

(** Every operation takes and returns bit patterns.  An arithmetic
    operation is the IEEE-754 binary32 operation, rounded to nearest even,
    as [SpecFloat] defines it for a precision of 24 bits: each C operator is
    rounded to [float] by itself (no wider intermediate format, no fused
    multiply-add).  A NaN result is encoded as the quiet NaN 0x7fc00000; no
    property below depends on the bits of a NaN. *)
Module F32.

Definition prec : Z := 24.
Definition emax : Z := 128.

Definition decode (b : float) : spec_float :=
  let s := Z.testbit b 31 in
  let e := Z.land (Z.shiftr b 23) 0xff in
  let m := Z.land b 0x7fffff in
  if e =? 0 then
    match m with
    | Zpos p => S754_finite s p (-149)
    | _ => S754_zero s
    end
  else if e =? 255 then
    (if m =? 0 then S754_infinity s else S754_nan)
  else
    match m + 0x800000 with
    | Zpos p => S754_finite s p (e - 150)
    | _ => S754_nan
    end.

Definition sign_bit (s : bool) : Z := if s then 0x80000000 else 0.

Definition encode (f : spec_float) : float :=
  match f with
  | S754_zero s => sign_bit s
  | S754_infinity s => sign_bit s + 0x7f800000
  | S754_nan => 0x7fc00000
  | S754_finite s m e =>
      if Zpos m <? 0x800000 then sign_bit s + Zpos m
      else sign_bit s + (e + 150) * 0x800000 + (Zpos m - 0x800000)
  end.

Definition add (a b : float) : float :=
  encode (SFadd prec emax (decode a) (decode b)).
Definition sub (a b : float) : float :=
  encode (SFsub prec emax (decode a) (decode b)).
Definition mul (a b : float) : float :=
  encode (SFmul prec emax (decode a) (decode b)).
Definition div (a b : float) : float :=
  encode (SFdiv prec emax (decode a) (decode b)).

(** Unary minus inverts the sign bit. *)
Definition neg (a : float) : float := Z.lxor a 0x80000000.

(** [sqrtf] is correctly rounded. *)
Definition sqrtf (a : float) : float :=
  encode (SFsqrt prec emax (decode a)).

(** [a < b]; false when either is a NaN. *)
Definition ltb (a b : float) : bool := SFltb (decode a) (decode b).

(** [a > b]. *)
Definition gtb (a b : float) : bool := SFltb (decode b) (decode a).

(** Conversion of an [int] to [float]. *)
Definition of_int (n : Z) : float :=
  encode (binary_normalize prec emax n 0 false).

(** The integer part of a finite float. *)
Definition truncate (a : float) : option Z :=
  match decode a with
  | S754_zero _ => Some 0
  | S754_finite s m e =>
      let q := match e with
               | Zneg k => Z.shiftr (Zpos m) (Zpos k)
               | _ => Zpos m * 2 ^ e
               end in
      Some (if s then - q else q)
  | _ => None
  end.

(** [(uint8_t) a]: defined when the integer part of [a] fits. *)
Definition to_uint8 (a : float) : option Z :=
  match truncate a with
  | Some q => if (0 <=? q) && (q <=? 255) then Some q else None
  | None => None
  end.

(** [base] to the power [n], correctly rounded, for [n >= 1]. *)
Definition pow_pos (base : float) (n : positive) : float :=
  match decode base with
  | S754_finite s m e =>
      let odd := match n with xO _ => false | _ => true end in
      encode (binary_round prec emax (s && odd) (Pos.pow m n) (e * Zpos n))
  | S754_zero s =>
      encode (S754_zero (s && match n with xO _ => false | _ => true end))
  | S754_infinity s =>
      encode (S754_infinity (s && match n with xO _ => false | _ => true end))
  | S754_nan => encode S754_nan
  end.

(** The patterns of the negative numbers: the sign bit is set, and the
    pattern is neither that of -0.0f nor that of a NaN. *)
Definition is_negative (a : float) : Prop := 0x80000000 < a <= 0xff800000.

(** A [powf] for exponents that are positive integers, where it returns the
    correctly rounded power; it stands for the [powf] of the C library in
    the sample evaluations of the render loop, which calls it with the
    exponent 20. *)
Definition powf_integral (base exponent : float) : float :=
  match truncate exponent with
  | Some (Zpos n) =>
      if of_int (Zpos n) =? exponent then pow_pos base n else encode S754_nan
  | _ => encode S754_nan
  end.

End F32.

Declare Scope f32_scope.
Delimit Scope f32_scope with f32.
Infix "+" := F32.add : f32_scope.
Infix "-" := F32.sub : f32_scope.
Infix "*" := F32.mul : f32_scope.
Infix "/" := F32.div : f32_scope.
Notation "- a" := (F32.neg a) : f32_scope.

(** A literal with an integer value, such as [2.0f] or the [int] 255 where a
    [float] is expected. *)
Notation "# n" := (F32.of_int n) (at level 1, format "# n") : f32_scope.

(** ** Vector arithmetic of main.c *)

Definition vec3_length_squared (v : vec3_t) : float :=
  (x v * x v + y v * y v + z v * z v)%f32.

Definition vec3_length (v : vec3_t) : float :=
  F32.sqrtf (vec3_length_squared v).

Definition vec3_normalized (v : vec3_t) : vec3_t :=
  let l := vec3_length v in
  mk_vec3 (x v / l)%f32 (y v / l)%f32 (z v / l)%f32.

Definition vec3_scale (v : vec3_t) (scale : float) : vec3_t :=
  mk_vec3 (x v * scale)%f32 (y v * scale)%f32 (z v * scale)%f32.

Definition vec3_add (a b : vec3_t) : vec3_t :=
  mk_vec3 (x a + x b)%f32 (y a + y b)%f32 (z a + z b)%f32.

Definition vec3_sub (a b : vec3_t) : vec3_t :=
  mk_vec3 (x a - x b)%f32 (y a - y b)%f32 (z a - z b)%f32.

Definition vec3_dot (a b : vec3_t) : float :=
  (x a * x b + y a * y b + z a * z b)%f32.

Definition clampf (value min max : float) : float :=
  if F32.ltb value min then min
  else if F32.gtb value max then max
  else value.

(** ** Ray and sphere *)

Definition is_Some_b {A} (o : option A) : bool :=
  match o with Some _ => true | None => false end.

(** [Some t] when the function returns [true] after storing [t]; [None]
    when it returns [false] and stores nothing. *)
Definition ray_sphere_intersection (r : ray_t) (s : sphere_t) : option float :=
  let oc := mk_vec3 (x (origin r) - x (center s))%f32
                    (y (origin r) - y (center s))%f32
                    (z (origin r) - z (center s))%f32 in
  let a := (x (direction r) * x (direction r)
            + y (direction r) * y (direction r)
            + z (direction r) * z (direction r))%f32 in
  let b := (#2 * (x oc * x (direction r) + y oc * y (direction r)
                  + z oc * z (direction r)))%f32 in
  let c := (x oc * x oc + y oc * y oc + z oc * z oc
            - radius s * radius s)%f32 in
  let discriminant := (b * b - #4 * a * c)%f32 in
  if F32.ltb discriminant (#0)%f32 then None
  else Some ((- b - F32.sqrtf discriminant) / (#2 * a))%f32.

(** The results are [(t, normal, position)]. *)
Definition ray_sphere_intersection_with_normal_and_position
    (r : ray_t) (s : sphere_t) : option (float * vec3_t * vec3_t) :=
  match ray_sphere_intersection r s with
  | Some t =>
      let position := vec3_add (origin r) (vec3_scale (direction r) t) in
      let normal :=
        vec3_scale (vec3_sub position (center s)) (#1 / radius s)%f32 in
      Some (t, normal, position)
  | None => None
  end.

(** ** Shading and the render loop *)

(** One call of [nano_gui_draw_pixel]. *)
Record draw_pixel := mk_draw { px : Z; py : Z; red : Z; green : Z; blue : Z }.

Section Render.

(** [powf] of the C library. *)
Variable powf : float -> float -> float.

Definition blinn_phong_shading (pl : point_light_t)
    (surface_position surface_normal view_direction : vec3_t)
    (specular_hardness : float) : lighting_t :=
  if F32.ltb (power pl) (#0)%f32 then
    mk_lighting (mk_vec3 (#0)%f32 (#0)%f32 (#0)%f32)
                (mk_vec3 (#0)%f32 (#0)%f32 (#0)%f32)
  else
    let light_direction := vec3_sub (position pl) surface_position in
    let distance_squared := vec3_length_squared light_direction in
    let distance := F32.sqrtf distance_squared in
    let light_direction := vec3_scale light_direction (#1 / distance)%f32 in
    (* Diffuse *)
    let NdotL := vec3_dot surface_normal light_direction in
    let intensity := clampf NdotL (#0)%f32 (#1)%f32 in
    let out_color :=
      vec3_scale (light_color pl)
                 (intensity * power pl / distance_squared)%f32 in
    (* Specular *)
    let half_vector :=
      vec3_normalized (vec3_add light_direction view_direction) in
    let NdotH := vec3_dot surface_normal half_vector in
    let specular_intensity :=
      powf (clampf NdotH (#0)%f32 (#1)%f32) specular_hardness in
    let out_specular :=
      vec3_scale (light_color pl)
                 (specular_intensity * power pl / distance_squared)%f32 in
    mk_lighting out_color out_specular.

Definition width : Z := 640.
Definition height : Z := 480.

Definition light1 : point_light_t :=
  {| power := (#1)%f32;
     light_color := mk_vec3 (#1)%f32 (#1)%f32 (#1)%f32;
     position := mk_vec3 (#(-1))%f32 (#(-1))%f32 (#0)%f32 |}.

Definition sphere : sphere_t :=
  mk_sphere (mk_vec3 (#0)%f32 (#0)%f32 (#(-2))%f32) (#1)%f32.

(** The ray through pixel [(i, j)]. *)
Definition camera_ray (i j : Z) : ray_t :=
  let x := (#i / #width)%f32 in
  let y := (#j / #height)%f32 in
  (* Transform to NDC and correct aspect ratio *)
  let x := (#2 * x - #1)%f32 in
  let y := (#2 * y - #1)%f32 in
  let x := (x * (#width / #height))%f32 in
  {| direction := vec3_normalized (mk_vec3 x y (#(-1))%f32);
     origin := mk_vec3 (#0)%f32 (#0)%f32 (#0)%f32 |}.

(** The three conversions to [uint8_t] of the pixel channels computed from
    one colour. *)
Definition channels (c : vec3_t) : option (Z * Z * Z) :=
  match F32.to_uint8 (clampf (x c * #255)%f32 (#0)%f32 (#255)%f32),
        F32.to_uint8 (clampf (y c * #255)%f32 (#0)%f32 (#255)%f32),
        F32.to_uint8 (clampf (z c * #255)%f32 (#0)%f32 (#255)%f32) with
  | Some r, Some g, Some b => Some (r, g, b)
  | _, _, _ => None
  end.

(** Body of the loops over [i] and [j]: the call of [nano_gui_draw_pixel]
    it makes, or [None] when a conversion to [uint8_t] is undefined. *)
Definition render_pixel (i j : Z) : option draw_pixel :=
  let ray := camera_ray i j in
  match ray_sphere_intersection_with_normal_and_position ray sphere with
  | Some (depth, normal, position) =>
      let lighting :=
        blinn_phong_shading light1 position normal (direction ray) (#20)%f32 in
      match F32.to_uint8 (clampf (x (color lighting) * #255)%f32 (#0)%f32 (#255)%f32),
            F32.to_uint8 (clampf (y (color lighting) * #255)%f32 (#0)%f32 (#255)%f32),
            F32.to_uint8 (clampf (z (color lighting) * #255)%f32 (#0)%f32 (#255)%f32) with
      | Some r, Some g, Some b => Some (mk_draw i j r g b)
      | _, _, _ => None
      end
  | None => Some (mk_draw i j 0 0 0)
  end.

(** One pass of the [while] loop: the calls in the order they are made. *)
Definition render_frame : list (option draw_pixel) :=
  flat_map (fun i => map (fun j => render_pixel i j)
                         (map Z.of_nat (seq 0 (Z.to_nat height))))
           (map Z.of_nat (seq 0 (Z.to_nat width))).

(** *** The pixel as the specification words it *)

(** The lighting of the pixel whose ray hits the sphere. *)
Definition pixel_lighting (i j : Z) : option lighting_t :=
  let ray := camera_ray i j in
  match ray_sphere_intersection_with_normal_and_position ray sphere with
  | Some (depth, normal, position) =>
      Some (blinn_phong_shading light1 position normal (direction ray)
                                (#20)%f32)
  | None => None
  end.

(** Diffuse and specular colours added, each channel scaled by 255 and
    clamped to [0, 255]. *)
Definition additive_pixel (i j : Z) : option draw_pixel :=
  match pixel_lighting i j with
  | Some lighting =>
      match channels (vec3_add (color lighting) (specular lighting)) with
      | Some (r, g, b) => Some (mk_draw i j r g b)
      | None => None
      end
  | None => Some (mk_draw i j 0 0 0)
  end.

(** The diffuse colour alone, each channel scaled by 255 and clamped to
    [0, 255]. *)
Definition diffuse_pixel (i j : Z) : option draw_pixel :=
  match pixel_lighting i j with
  | Some lighting =>
      match channels (color lighting) with
      | Some (r, g, b) => Some (mk_draw i j r g b)
      | None => None
      end
  | None => Some (mk_draw i j 0 0 0)
  end.

End Render.

(** *** The intersection as the specification words it *)

Module Spec.

Definition a (r : ray_t) : float := vec3_dot (direction r) (direction r).

Definition b (r : ray_t) (s : sphere_t) : float :=
  (#2 * vec3_dot (vec3_sub (origin r) (center s)) (direction r))%f32.

Definition c (r : ray_t) (s : sphere_t) : float :=
  (vec3_dot (vec3_sub (origin r) (center s)) (vec3_sub (origin r) (center s))
   - radius s * radius s)%f32.

Definition discriminant (r : ray_t) (s : sphere_t) : float :=
  (b r s * b r s - #4 * a r * c r s)%f32.

Definition near_root (r : ray_t) (s : sphere_t) : float :=
  ((- b r s - F32.sqrtf (discriminant r s)) / (#2 * a r))%f32.

(** [origin + t direction], component by component. *)
Definition point_at (r : ray_t) (t : float) : vec3_t :=
  {| x := (x (origin r) + x (direction r) * t)%f32;
     y := (y (origin r) + y (direction r) * t)%f32;
     z := (z (origin r) + z (direction r) * t)%f32 |}.

(** [(position - center) / radius]: every component is divided by the
    radius. *)
Definition normal_quotient (position : vec3_t) (s : sphere_t) : vec3_t :=
  {| x := ((x position - x (center s)) / radius s)%f32;
     y := ((y position - y (center s)) / radius s)%f32;
     z := ((z position - z (center s)) / radius s)%f32 |}.

(** [(position - center) * (1 / radius)]: every component is multiplied by
    the reciprocal of the radius, itself rounded to single precision. *)
Definition normal_reciprocal (position : vec3_t) (s : sphere_t) : vec3_t :=
  {| x := ((x position - x (center s)) * (#1 / radius s))%f32;
     y := ((y position - y (center s)) * (#1 / radius s))%f32;
     z := ((z position - z (center s)) * (#1 / radius s))%f32 |}.

(** [(t, normal, position)] of a hit, for a given way of deriving the
    normal. *)
Definition intersect (normal : vec3_t -> sphere_t -> vec3_t)
    (r : ray_t) (s : sphere_t) : option (float * vec3_t * vec3_t) :=
  if F32.ltb (discriminant r s) (#0)%f32 then None
  else
    let t := near_root r s in
    Some (t, normal (point_at r t) s, point_at r t).

(** A ray along [-z] from the origin and a sphere of radius 7 that it meets
    at (0,0,-3): there [position - center] is (6,3,2). *)
Definition ray7 : ray_t :=
  (mk_ray (mk_vec3 (#0) (#0) (#0)) (mk_vec3 (#0) (#0) (#(-1))))%f32.

Definition sphere7 : sphere_t :=
  (mk_sphere (mk_vec3 (#(-6)) (#(-3)) (#(-5))) (#7))%f32.

End Spec.

(** ** The input stream *)

(** A [FILE*] opened for reading: the bytes from the current position to the
    end of the file.  A position beyond the end is the empty list. *)
Record FILE := mk_file { seekable : bool; data : list byte }.

(** [fseek(f, n, SEEK_CUR)]: fails on a stream that cannot seek; seeking
    beyond the end of a file succeeds. *)
Definition fseek_cur (f : FILE) (n : nat) : option FILE :=
  if seekable f then Some (mk_file true (drop n (data f))) else None.

(** [fread(ptr, size, count, f) == count], with [n = size * count]: the
    bytes read and the advanced stream, or [None] on a short read. *)
Definition fread (n : nat) (f : FILE) : option (list byte * FILE) :=
  if decide (n <= length (data f))%nat
  then Some (take n (data f), mk_file (seekable f) (drop n (data f)))
  else None.

(** Little-endian value of a byte string. *)
Fixpoint le_value (bs : list byte) : Z :=
  match bs with
  | [] => 0
  | b :: bs' => Z.of_N (Byte.to_N b) + 256 * le_value bs'
  end.

(** The [i]-th [vec3_t] of a buffer of packed floats. *)
Definition vec3_at (bs : list byte) (i : nat) : vec3_t :=
  let f k := le_value (take 4 (drop (12 * i + 4 * k) bs)) in
  mk_vec3 (f 0%nat) (f 1%nat) (f 2%nat).

(** ** Outcome of a run of the loader *)

Inductive result (A : Type) : Type :=
| Ok (a : A)
| Exit (code : Z) (message : string)   (* [puts(message); return code;] *)
| Undefined.                           (* behaviour the C standard leaves undefined *)

Arguments Ok {A} a.
Arguments Exit {A} code message.
Arguments Undefined {A}.

Definition bind {A B} (r : result A) (k : A -> result B) : result B :=
  match r with
  | Ok a => k a
  | Exit c m => Exit c m
  | Undefined => Undefined
  end.

Notation "'do' x <- r ; k" := (bind r (fun x => k))
  (at level 10, x name, r at level 100, k at level 200).

Definition or_exit {A} (o : option A) (message : string) : result A :=
  match o with Some a => Ok a | None => Exit 1 message end.

Definition or_undefined {A} (o : option A) : result A :=
  match o with Some a => Ok a | None => Undefined end.

(** ** The loader *)

Module Loader.

(** The heap objects of the parse.  A cell of [unique_vertices] or of
    [preallocated_nodes] that was never written is [None]; a bucket is [None]
    when it holds [NULL]. *)
Record state := mk_state {
  unique_vertices : list (option vec3_t);
  num_unique_vertices : nat;
  preallocated_nodes : list (option node_t);
  new_node_index : nat;
  buckets : list (option nat)
}.

(** The three [malloc]s and the loop that clears the buckets.  The products
    [3 * num_tris] are computed in [uint32_t] before they are converted to
    [size_t]. *)
Definition init (num_tris : Z) : state :=
  let num_max_unique_vertices := Z.to_nat (wrap32 (3 * num_tris)) in
  let num_buckets := Z.to_nat (wrap32 (3 * num_tris)) in
  {| unique_vertices := replicate num_max_unique_vertices None;
     num_unique_vertices := 0;
     preallocated_nodes := replicate num_max_unique_vertices None;
     new_node_index := 0;
     buckets := replicate num_buckets None |}.

(** Body of the loop over [triangle_vertex_index]. *)
Definition dedup_vertex (num_buckets : Z) (st : state) (vertex : vec3_t)
  : option state :=
  let vertex_hash := Hash.hash (x vertex) (y vertex) (z vertex) in
  if num_buckets =? 0 then None else
  let bucket_index := Z.to_nat (vertex_hash mod num_buckets) in
  match buckets st !! bucket_index with
  | None => None                       (* index out of the array *)
  | Some (Some _) => Some st
  | Some None =>
      (* Push new hash map node *)
      let node := new_node_index st in
      (* Push new vertex to unique vertices array *)
      let new_unique_vertex_index := num_unique_vertices st in
      if decide (node < length (preallocated_nodes st)
                 /\ new_unique_vertex_index < length (unique_vertices st))%nat
      then Some
        {| buckets := <[bucket_index := Some node]> (buckets st);
           new_node_index := S node;
           preallocated_nodes :=
             <[node := Some {| next := None; key := vertex;
                               value := wrap32 (Z.of_nat new_unique_vertex_index) |}]>
               (preallocated_nodes st);
           num_unique_vertices := S new_unique_vertex_index;
           unique_vertices :=
             <[new_unique_vertex_index := Some vertex]> (unique_vertices st) |}
      else None
  end.

Fixpoint dedup_vertices (num_buckets : Z) (st : state) (vs : list vec3_t)
  : option state :=
  match vs with
  | [] => Some st
  | v :: vs' =>
      match dedup_vertex num_buckets st v with
      | Some st' => dedup_vertices num_buckets st' vs'
      | None => None
      end
  end.

(** The three reads of one 50-byte record; the vertices are returned. *)
Definition read_triangle (f : FILE) : result (list vec3_t * FILE) :=
  do r <- or_exit (fread 12 f) "Failed to read normal" ;
  do r <- or_exit (fread 36 (snd r)) "Failed to read vertices" ;
  let triangle_vertices := fst r in
  do r <- or_exit (fread 2 (snd r)) "Failed to read attribute byte count" ;
  Ok ([vec3_at triangle_vertices 0; vec3_at triangle_vertices 1;
       vec3_at triangle_vertices 2], snd r).

(** The loop over [triangle_index], with [n] iterations left. *)
Fixpoint parse_triangles (n : nat) (num_buckets : Z) (f : FILE) (st : state)
  : result state :=
  match n with
  | O => Ok st
  | S n' =>
      do r <- read_triangle f ;
      do st' <- or_undefined (dedup_vertices num_buckets st (fst r)) ;
      parse_triangles n' num_buckets (snd r) st'
  end.

(** [main], from the opened file to the end of the parse. *)
Definition load (stl_mesh_file : FILE) : result state :=
  do f <- or_exit (fseek_cur stl_mesh_file 80) "Failed to seek" ;
  do r <- or_exit (fread 4 f) "Failed to read number of triangles" ;
  let num_tris := le_value (fst r) in
  let num_buckets := wrap32 (3 * num_tris) in
  parse_triangles (Z.to_nat num_tris) num_buckets (snd r) (init num_tris).

(** *** Notions used to state the properties of the loader *)

(** The triangle count stored after the 80-byte header. *)
Definition triangle_count (f : FILE) : Z :=
  le_value (take 4 (drop 80 (data f))).

(** The stream behind the header and the triangle count. *)
Definition body (f : FILE) : FILE :=
  mk_file (seekable f) (drop 84 (data f)).

(** The vertices of the records the loop over [triangle_index] reads in full
    from the stream, in file order: those of at most [n] records, up to the
    first record that is cut short. *)
Fixpoint stream_vertices (n : nat) (f : FILE) : list vec3_t :=
  match n with
  | O => []
  | S n' =>
      match read_triangle f with
      | Ok r => fst r ++ stream_vertices n' (snd r)
      | _ => []
      end
  end.

(** The vertex occurrences a run of the loader processes. *)
Definition vertices (f : FILE) : list vec3_t :=
  stream_vertices (Z.to_nat (triangle_count f)) (body f).

(** The bucket a vertex is looked up in. *)
Definition bucket_of (num_buckets : Z) (v : vec3_t) : nat :=
  Z.to_nat (Hash.hash (x v) (y v) (z v) mod num_buckets).

(** The node at the head of the chain of bucket [i]. *)
Definition head_node (st : state) (i : nat) : option node_t :=
  match buckets st !! i with
  | Some (Some p) =>
      match preallocated_nodes st !! p with
      | Some (Some nd) => Some nd
      | _ => None
      end
  | _ => None
  end.

(** The unique-vertex index the table holds for a vertex: the [value] of the
    node its bucket points to. *)
Definition index_of (num_buckets : Z) (st : state) (v : vec3_t) : option Z :=
  match head_node st (bucket_of num_buckets v) with
  | Some nd => Some (value nd)
  | None => None
  end.

(** Number of buckets that are not [NULL]. *)
Fixpoint occupied (bs : list (option nat)) : nat :=
  match bs with
  | [] => 0
  | Some _ :: bs' => S (occupied bs')
  | None :: bs' => occupied bs'
  end.

(** Number of arena cells that hold a node. *)
Fixpoint allocated (ns : list (option node_t)) : nat :=
  match ns with
  | [] => 0
  | Some _ :: ns' => S (allocated ns')
  | None :: ns' => allocated ns'
  end.

(** The nodes of a chain, following [next] from the pointer [p] for at most
    [fuel] nodes. *)
Fixpoint chain (st : state) (fuel : nat) (p : option nat) : list node_t :=
  match fuel, p with
  | S fuel', Some q =>
      match preallocated_nodes st !! q with
      | Some (Some nd) => nd :: chain st fuel' (next nd)
      | _ => []
      end
  | _, _ => []
  end.

(** What holds of the table between two vertices. *)
Record table_ok (st : state) : Prop := {
  (* a bucket that is not NULL points to a node that was written *)
  ok_head : forall i p, buckets st !! i = Some (Some p) ->
      exists nd, head_node st i = Some nd;
  (* the value of a node is an index into the unique vertices *)
  ok_value : forall i nd, head_node st i = Some nd ->
      0 <= value nd < Z.of_nat (num_unique_vertices st);
  (* and the vertex at that index has the bits of the key *)
  ok_key : forall i nd, head_node st i = Some nd ->
      unique_vertices st !! Z.to_nat (value nd) = Some (Some (key nd));
  (* as many nodes were taken from the arena as there are unique vertices *)
  ok_next_node : new_node_index st = num_unique_vertices st;
  ok_allocated : allocated (preallocated_nodes st) = num_unique_vertices st;
  (* no node has a successor, and no chain has two nodes *)
  ok_next : forall i nd, head_node st i = Some nd -> next nd = None;
  ok_chain : forall i fuel p, buckets st !! i = Some p ->
      (length (chain st fuel p) <= 1)%nat
}.

(** The state after the first [k] vertices of the stream [vs]. *)
Definition state_after (num_tris : Z) (vs : list vec3_t) (k : nat)
  : option state :=
  dedup_vertices (wrap32 (3 * num_tris)) (init num_tris) (take k vs).

End Loader.

(** ** Mesh files used as examples *)

Module Mesh.

(** The four bytes of a 32-bit word, least significant first. *)
Definition word_bytes (w : Z) : list byte :=
  map (fun k => default x00 (Byte.of_N (Z.to_N ((w / 256 ^ k) mod 256))))
      [0; 1; 2; 3].

Definition vec3_bytes (v : vec3_t) : list byte :=
  word_bytes (x v) ++ word_bytes (y v) ++ word_bytes (z v).

(** The 36 bytes of the three vertices of a record. *)
Definition corners (a b c : vec3_t) : list byte :=
  vec3_bytes a ++ vec3_bytes b ++ vec3_bytes c.

(** A 50-byte record with a zero normal and a zero attribute count. *)
Definition record (t : vec3_t * vec3_t * vec3_t) : list byte :=
  let '(a, b, c) := t in
  replicate 12 x00 ++ corners a b c ++ replicate 2 x00.

(** A seekable file: zero header, triangle count, records. *)
Definition file (ts : list (vec3_t * vec3_t * vec3_t)) : FILE :=
  mk_file true
    (replicate 80 x00 ++ word_bytes (Z.of_nat (length ts)) ++ concat (map record ts)).

(** Bit patterns of the floats 0.0f and 1.0f. *)
Definition f0 : float := 0.
Definition f1 : float := 0x3f800000.

(** One triangle with the corners (0,0,0), (1,0,0), (0,1,0). *)
Definition one_triangle : FILE :=
  file [(mk_vec3 f0 f0 f0, mk_vec3 f1 f0 f0, mk_vec3 f0 f1 f0)].

(** One triangle with the corners (0,0,0), (0,1,0), (0,0,1): the last two
    fall into the same bucket of three. *)
Definition colliding_triangle : FILE :=
  file [(mk_vec3 f0 f0 f0, mk_vec3 f0 f1 f0, mk_vec3 f0 f0 f1)].

(** Two triangles that share the edge from (1,0,0) to (0,1,0). *)
Definition shared_edge : FILE :=
  file [(mk_vec3 f0 f0 f0, mk_vec3 f1 f0 f0, mk_vec3 f0 f1 f0);
        (mk_vec3 f1 f0 f0, mk_vec3 f1 f1 f0, mk_vec3 f0 f1 f0)].

End Mesh.

(** ** What the parse computes *)

Module Dedup.

#[global] Instance vec3_eq_dec : EqDecision vec3_t.
Proof. solve_decision. Defined.

(** The vertices of [vs] that are the first of the stream to fall into
    their bucket, in stream order; [seen] lists the buckets already
    taken. *)
Fixpoint first_per_bucket (num_buckets : Z) (seen : list nat)
    (vs : list vec3_t) : list vec3_t :=
  match vs with
  | [] => []
  | v :: vs' =>
      if decide (Loader.bucket_of num_buckets v ∈ seen)
      then first_per_bucket num_buckets seen vs'
      else v :: first_per_bucket num_buckets
                  (Loader.bucket_of num_buckets v :: seen) vs'
  end.

(** The first occurrence of every vertex of [vs], in stream order; [seen]
    lists the vertices already met. *)
Fixpoint first_seen (seen : list vec3_t) (vs : list vec3_t) : list vec3_t :=
  match vs with
  | [] => []
  | v :: vs' =>
      if decide (v ∈ seen) then first_seen seen vs'
      else v :: first_seen (v :: seen) vs'
  end.

(** The cells of [unique_vertices] below [num_unique_vertices]. *)
Definition stored (st : Loader.state) : list (option vec3_t) :=
  take (Loader.num_unique_vertices st) (Loader.unique_vertices st).

(** The message of the read that fails, from the length of the file alone;
    [None] when every read succeeds. *)
Definition read_failure (f : FILE) : option string :=
  if negb (seekable f) then Some "Failed to seek"%string
  else if (length (data f) <? 84)%nat
  then Some "Failed to read number of triangles"%string
  else
    let left := (length (data f) - 84)%nat in
    if (Z.to_nat (Loader.triangle_count f) <=? left / 50)%nat then None
    else if (left mod 50 <? 12)%nat then Some "Failed to read normal"%string
    else if (left mod 50 <? 48)%nat then Some "Failed to read vertices"%string
    else Some "Failed to read attribute byte count"%string.

End Dedup.

(** ** The layout of a mesh file *)

Module Layout.

(** A vertex whose three components are 32-bit patterns. *)
Definition is_words (v : vec3_t) : Prop :=
  is_uint32 (x v) /\ is_uint32 (y v) /\ is_uint32 (z v).

Definition triangle_ok (t : vec3_t * vec3_t * vec3_t) : Prop :=
  is_words t.1.1 /\ is_words t.1.2 /\ is_words t.2.

(** The corners of the triangles, in file order. *)
Definition corners_of (ts : list (vec3_t * vec3_t * vec3_t)) : list vec3_t :=
  concat (map (fun t => [t.1.1; t.1.2; t.2]) ts).

(** A record of the file: the bytes of the normal, the three corners and
    the bytes of the attribute byte count. *)
Record record_t := mk_record {
  normal_bytes : list byte;
  corner_vertices : vec3_t * vec3_t * vec3_t;
  attribute_bytes : list byte
}.

Definition record_ok (r : record_t) : Prop :=
  length (normal_bytes r) = 12%nat /\ triangle_ok (corner_vertices r) /\
  length (attribute_bytes r) = 2%nat.

(** The 50 bytes of a record. *)
Definition record_bytes (r : record_t) : list byte :=
  let '(a, b, c) := corner_vertices r in
  normal_bytes r ++ Mesh.corners a b c ++ attribute_bytes r.

(** A seekable file: header, little-endian triangle count, records, and
    whatever follows the last record. *)
Definition file (header : list byte) (rs : list record_t) (rest : list byte)
  : FILE :=
  mk_file true
    (header ++ Mesh.word_bytes (Z.of_nat (length rs))
     ++ concat (map record_bytes rs) ++ rest).

(** Two records whose normals and attribute bytes are not all zero. *)
Definition two_records : list record_t :=
  [mk_record (replicate 12 xff)
     (mk_vec3 Mesh.f0 Mesh.f0 Mesh.f0, mk_vec3 Mesh.f1 Mesh.f0 Mesh.f0,
      mk_vec3 Mesh.f0 Mesh.f1 Mesh.f0) [x07; x00];
   mk_record (replicate 12 x3f)
     (mk_vec3 Mesh.f1 Mesh.f0 Mesh.f0, mk_vec3 Mesh.f1 Mesh.f1 Mesh.f0,
      mk_vec3 Mesh.f0 Mesh.f1 Mesh.f0) [x00; x80]].

End Layout.

(** ** The loader when an allocation can fail *)

Module Alloc.

(** What the three calls of [malloc] return: [true] for a block that holds
    the [3 * num_tris] cells asked for, [false] for [NULL].  The program
    tests none of the three pointers.  A call for zero bytes may return
    either; no cell is then read or written. *)
Record mallocs := mk_mallocs {
  unique_vertices_ok : bool;
  preallocated_nodes_ok : bool;
  buckets_ok : bool
}.

Definition succeed (m : mallocs) : Prop :=
  unique_vertices_ok m = true /\ preallocated_nodes_ok m = true /\
  buckets_ok m = true.

(** The three [malloc]s and the loop that clears the buckets: as soon as
    the loop runs once it writes [buckets[0]], through [NULL] when the third
    allocation failed.  The cells of an array whose allocation failed are
    never looked at: the access is undefined before. *)
Definition init (m : mallocs) (num_tris : Z) : option Loader.state :=
  if (0 <? wrap32 (3 * num_tris)) && negb (buckets_ok m) then None
  else Some (Loader.init num_tris).

(** Body of the loop over [triangle_vertex_index]. *)
Definition dedup_vertex (m : mallocs) (num_buckets : Z) (st : Loader.state)
    (vertex : vec3_t) : option Loader.state :=
  let vertex_hash := Hash.hash (x vertex) (y vertex) (z vertex) in
  if num_buckets =? 0 then None else
  let bucket_index := Z.to_nat (vertex_hash mod num_buckets) in
  if negb (buckets_ok m) then None     (* buckets[bucket_index] through NULL *)
  else
    match Loader.buckets st !! bucket_index with
    | None => None
    | Some (Some _) => Some st
    | Some None =>
        (* buckets[bucket_index]->next = NULL writes the node arena *)
        if negb (preallocated_nodes_ok m) then None
        (* unique_vertices[new_unique_vertex_index] = vertex *)
        else if negb (unique_vertices_ok m) then None
        else Loader.dedup_vertex num_buckets st vertex
    end.

Fixpoint dedup_vertices (m : mallocs) (num_buckets : Z) (st : Loader.state)
    (vs : list vec3_t) : option Loader.state :=
  match vs with
  | [] => Some st
  | v :: vs' =>
      match dedup_vertex m num_buckets st v with
      | Some st' => dedup_vertices m num_buckets st' vs'
      | None => None
      end
  end.

(** The loop over [triangle_index], with [n] iterations left. *)
Fixpoint parse_triangles (m : mallocs) (n : nat) (num_buckets : Z) (f : FILE)
    (st : Loader.state) : result Loader.state :=
  match n with
  | O => Ok st
  | S n' =>
      do r <- Loader.read_triangle f ;
      do st' <- or_undefined (dedup_vertices m num_buckets st (fst r)) ;
      parse_triangles m n' num_buckets (snd r) st'
  end.

(** [main], from the opened file to the end of the parse. *)
Definition load (m : mallocs) (stl_mesh_file : FILE) : result Loader.state :=
  do f <- or_exit (fseek_cur stl_mesh_file 80) "Failed to seek" ;
  do r <- or_exit (fread 4 f) "Failed to read number of triangles" ;
  let num_tris := le_value (fst r) in
  let num_buckets := wrap32 (3 * num_tris) in
  do st <- or_undefined (init m num_tris) ;
  parse_triangles m (Z.to_nat num_tris) num_buckets (snd r) st.

(** The state after the first [k] vertices of the stream [vs]. *)
Definition state_after (m : mallocs) (num_tris : Z) (vs : list vec3_t)
    (k : nat) : option Loader.state :=
  match init m num_tris with
  | Some st => dedup_vertices m (wrap32 (3 * num_tris)) st (take k vs)
  | None => None
  end.

(** Whether a run on [f] goes through a null pointer, from the results of
    the allocations, the triangle count and the length of the file: the
    count is read and is not zero, and either [buckets] is [NULL], which the
    clearing loop writes through, or one of the other two pointers is and
    the first record is there in full, whose first vertex is pushed. *)
Definition null_access (m : mallocs) (f : FILE) : bool :=
  seekable f && (84 <=? length (data f))%nat
  && (0 <? Loader.triangle_count f)
  && (negb (buckets_ok m)
      || ((134 <=? length (data f))%nat
          && negb (preallocated_nodes_ok m && unique_vertices_ok m))).

End Alloc.

(** ** The inverse of the integer hash *)

Module HashInverse.

(** Undoes [x ^= x >> k] on a 32-bit word when [3 * k >= 32]. *)
Definition unxorshift (k : Z) (w : Z) : Z :=
  Z.lxor w (Z.lxor (Z.shiftr w k) (Z.shiftr w (2 * k))).

(** The steps of [int_hash32] undone from the last to the first; the
    multipliers are the inverses of its constants modulo 2^32. *)
Definition int_hash32_inv (w : Z) : Z :=
  let w := unxorshift 14 w in
  let w := wrap32 (w * 0x32b21703) in
  let w := unxorshift 15 w in
  let w := wrap32 (w * 0x469e0db1) in
  let w := unxorshift 11 w in
  let w := wrap32 (w * 0x79a85073) in
  let w := unxorshift 17 w in
  w.

End HashInverse.

(** ** Classes of single-precision values *)

Module F32Class.

(** The two zeros, by their bits. *)
Definition is_zero (a : float) : Prop := a = 0 \/ a = 0x80000000.

(** A pattern that decodes to a NaN. *)
Definition is_nan (a : float) : Prop := F32.decode a = S754_nan.

Definition all_zero (v : vec3_t) : Prop :=
  is_zero (x v) /\ is_zero (y v) /\ is_zero (z v).

Definition all_nan (v : vec3_t) : Prop :=
  is_nan (x v) /\ is_nan (y v) /\ is_nan (z v).

(** A zero or a NaN. *)
Definition zero_or_nan (a : float) : Prop :=
  match F32.decode a with
  | S754_zero _ | S754_nan => True
  | _ => False
  end.

(** Two results that are the same value: they decode to the same zero,
    infinity or finite number or are both NaNs, and they are the same bits
    unless they are NaNs, whose payload is not compared. *)
Definition same_value (a b : float) : Prop :=
  F32.decode a = F32.decode b /\ (~ is_nan a -> a = b).

(** An infinity or a NaN. *)
Definition infinity_or_nan (a : float) : Prop :=
  match F32.decode a with
  | S754_infinity _ | S754_nan => True
  | _ => False
  end.

End F32Class.

(** ** The program *)

Module Program.

Section Main.

Variable powf : float -> float -> float.

(** [main]: [m] is what the three calls of [malloc] return;
    [fopen_result] is what [fopen(argv[1], "rb")] returns, [None]
    for [NULL]; [polls] is the number of times [nano_gui_process_events]
    returns true before it returns false.  [Exit] is a [puts] followed by a
    [return]; [Ok] is the [return 0] after the main loop, with the frames
    drawn, each the calls of [nano_gui_draw_pixel] of one pass. *)
Definition main (m : Alloc.mallocs) (argc : Z) (fopen_result : option FILE)
    (polls : nat) : result (list (list (option draw_pixel))) :=
  if negb (argc =? 2) then Exit 0 "Expected arguments: path/to/mesh.stl"
  else
    match fopen_result with
    | None => Exit 1 "Failed to open file"
    | Some stl_mesh_file =>
        do _st <- Alloc.load m stl_mesh_file ;
        (* TODO: build BVH *)
        Ok (replicate polls (render_frame powf))
    end.

End Main.

End Program.

(** A file that announces 1431655766 triangles and holds two records. *)
Module Large.

Definition announced : Z := 0x55555556.

Definition file : FILE :=
  mk_file true
    (replicate 80 x00 ++ Mesh.word_bytes announced
     ++ Mesh.record (mk_vec3 0 0 0, mk_vec3 Mesh.f1 0 0, mk_vec3 0 Mesh.f1 0)
     ++ Mesh.record (mk_vec3 Mesh.f1 0 0, mk_vec3 Mesh.f1 Mesh.f1 0,
                     mk_vec3 0 Mesh.f1 0)).

End Large.

(** * Machine integers *)

Lemma wrap32_range (a : Z) : is_uint32 (wrap32 a).
Proof. unfold is_uint32, wrap32. apply Z.mod_pos_bound. lia. Qed.

Lemma wrap32_small (a : Z) : is_uint32 a -> wrap32 a = a.
Proof. unfold is_uint32, wrap32. intros H. now apply Z.mod_small. Qed.

(** * Properties of the hash *)

Section HashFacts.
Import Hash.

Lemma lxor_uint32 (a b : Z) : is_uint32 a -> is_uint32 b -> is_uint32 (Z.lxor a b).
Proof.
  unfold is_uint32. intros [Ha Ha'] [Hb Hb'].
  assert (H0 : 0 <= Z.lxor a b) by (apply Z.lxor_nonneg; tauto).
  split; [assumption|].
  destruct (Z.eq_dec (Z.lxor a b) 0) as [->|Hne]; [lia|].
  apply Z.log2_lt_pow2; [lia|].
  pose proof (Z.log2_lxor a b Ha Hb) as Hl.
  assert (Z.log2 a < 32).
  { destruct (Z.eq_dec a 0) as [->|]; [simpl; lia|].
    apply Z.log2_lt_pow2; lia. }
  assert (Z.log2 b < 32).
  { destruct (Z.eq_dec b 0) as [->|]; [simpl; lia|].
    apply Z.log2_lt_pow2; lia. }
  lia.
Qed.

Lemma shiftr_uint32 (a k : Z) : 0 <= k -> is_uint32 a -> is_uint32 (Z.shiftr a k).
Proof.
  unfold is_uint32. intros Hk [Ha Ha'].
  rewrite Z.shiftr_div_pow2 by assumption.
  assert (0 < 2 ^ k) by (apply Z.pow_pos_nonneg; lia).
  split; [apply Z.div_pos; lia|].
  apply Z.le_lt_trans with a; [|assumption].
  apply Z.div_le_upper_bound; nia.
Qed.

(** [x ^= x >> k] loses nothing. *)
Lemma xorshift_inj (k a b : Z) :
  0 < k -> 0 <= a -> 0 <= b ->
  Z.lxor a (Z.shiftr a k) = Z.lxor b (Z.shiftr b k) -> a = b.
Proof.
  intros Hk Ha Hb E.
  apply Z.lxor_eq.
  set (d := Z.lxor a b).
  assert (Hd : 0 <= d) by (apply Z.lxor_nonneg; tauto).
  assert (E' : Z.lxor d (Z.shiftr d k) = 0).
  { unfold d. rewrite Z.shiftr_lxor.
    replace (Z.lxor (Z.lxor a b) (Z.lxor (Z.shiftr a k) (Z.shiftr b k)))
      with (Z.lxor (Z.lxor a (Z.shiftr a k)) (Z.lxor b (Z.shiftr b k))).
    - rewrite E. apply Z.lxor_nilpotent.
    - rewrite !Z.lxor_assoc. f_equal.
      rewrite <- !Z.lxor_assoc. f_equal. apply Z.lxor_comm. }
  apply Z.lxor_eq in E'.
  rewrite Z.shiftr_div_pow2 in E' by lia.
  destruct (Z.eq_dec d 0) as [|Hne]; [assumption|].
  assert (d / 2 ^ k < d); [|lia].
  apply Z.div_lt; [lia|].
  apply Z.pow_gt_1; lia.
Qed.

(** [x *= c] loses nothing when [c] has an inverse modulo 2^32. *)
Lemma mul_inv_inj (c c' a b : Z) :
  wrap32 (c * c') = 1 -> is_uint32 a -> is_uint32 b ->
  wrap32 (a * c) = wrap32 (b * c) -> a = b.
Proof.
  unfold wrap32, is_uint32. intros Hc Ha Hb E.
  assert (H : forall u, 0 <= u < 2 ^ 32 ->
            u = ((u * c) mod 2 ^ 32 * c') mod 2 ^ 32).
  { intros u Hu. rewrite Z.mul_mod_idemp_l by lia.
    rewrite <- Z.mul_assoc, <- Z.mul_mod_idemp_r, Hc by lia.
    rewrite Z.mul_1_r. symmetry. now apply Z.mod_small. }
  rewrite (H a Ha), (H b Hb), E. reflexivity.
Qed.

Lemma round_inj (k c c' a b : Z) :
  0 < k -> wrap32 (c * c') = 1 -> is_uint32 a -> is_uint32 b ->
  round k c a = round k c b -> a = b.
Proof.
  intros Hk Hc Ha Hb E. unfold round in E.
  apply (mul_inv_inj c c') in E; auto.
  - apply (xorshift_inj k); auto; [apply Ha|apply Hb].
  - apply lxor_uint32; [|apply shiftr_uint32]; auto; lia.
  - apply lxor_uint32; [|apply shiftr_uint32]; auto; lia.
Qed.

Lemma int_hash32_rounds (a : Z) :
  int_hash32 a
  = (fun r => Z.lxor r (Z.shiftr r 14))
      (round 15 0x31848bab (round 11 0xac4c1b51 (round 17 0xed5ad4bb a))).
Proof. reflexivity. Qed.

Lemma int_hash32_uint32 (a : Z) : is_uint32 (int_hash32 a).
Proof.
  rewrite int_hash32_rounds. cbv beta.
  apply lxor_uint32; [|apply shiftr_uint32; [lia|]]; apply wrap32_range.
Qed.

(** [int_hash32] is one-to-one on 32-bit words. *)
Lemma int_hash32_inj (a b : Z) :
  is_uint32 a -> is_uint32 b -> int_hash32 a = int_hash32 b -> a = b.
Proof.
  intros Ha Hb. rewrite !int_hash32_rounds. cbv beta. intros E.
  apply xorshift_inj in E; try lia; try apply wrap32_range.
  apply (round_inj 15 _ 0x32b21703) in E;
    try lia; try apply wrap32_range; [|reflexivity].
  apply (round_inj 11 _ 0x469e0db1) in E;
    try lia; try apply wrap32_range; [|reflexivity].
  apply (round_inj 17 _ 0x79a85073) in E; auto; try lia; reflexivity.
Qed.

Lemma hash_uint32 (a b c : Z) : is_uint32 (hash a b c).
Proof. unfold hash. apply int_hash32_uint32. Qed.

Lemma lxor_cancel_r (a b c : Z) : Z.lxor a c = Z.lxor b c -> a = b.
Proof.
  intros E.
  rewrite <- (Z.lxor_0_r a), <- (Z.lxor_0_r b), <- (Z.lxor_nilpotent c).
  rewrite <- !Z.lxor_assoc. now rewrite E.
Qed.

Lemma lxor_cancel_l (a b c : Z) : Z.lxor c a = Z.lxor c b -> a = b.
Proof. rewrite !(Z.lxor_comm c). apply lxor_cancel_r. Qed.

Lemma hash_unfold (a b c : Z) :
  hash a b c = int_hash32 (Z.lxor (int_hash32 (Z.lxor (int_hash32 a) b)) c).
Proof. unfold hash. rewrite Z.lxor_0_l. reflexivity. Qed.

(** Changing one component, and only one, changes the hash. *)
Lemma hash_inj_x (a a' b c : Z) :
  is_uint32 a -> is_uint32 a' -> is_uint32 b -> is_uint32 c ->
  hash a b c = hash a' b c -> a = a'.
Proof.
  intros Ha Ha' Hb Hc E. rewrite !hash_unfold in E.
  apply int_hash32_inj in E;
    try (apply lxor_uint32; auto using int_hash32_uint32).
  apply lxor_cancel_r in E.
  apply int_hash32_inj in E;
    try (apply lxor_uint32; auto using int_hash32_uint32).
  apply lxor_cancel_r in E.
  apply int_hash32_inj in E; auto.
Qed.

Lemma hash_inj_y (a b b' c : Z) :
  is_uint32 a -> is_uint32 b -> is_uint32 b' -> is_uint32 c ->
  hash a b c = hash a b' c -> b = b'.
Proof.
  intros Ha Hb Hb' Hc E. rewrite !hash_unfold in E.
  apply int_hash32_inj in E;
    try (apply lxor_uint32; auto using int_hash32_uint32).
  apply lxor_cancel_r in E.
  apply int_hash32_inj in E;
    try (apply lxor_uint32; auto using int_hash32_uint32).
  now apply lxor_cancel_l in E.
Qed.

Lemma hash_inj_z (a b c c' : Z) :
  is_uint32 a -> is_uint32 b -> is_uint32 c -> is_uint32 c' ->
  hash a b c = hash a b c' -> c = c'.
Proof.
  intros Ha Hb Hc Hc' E. rewrite !hash_unfold in E.
  apply int_hash32_inj in E;
    try (apply lxor_uint32; auto using int_hash32_uint32).
  now apply lxor_cancel_l in E.
Qed.

Lemma flip_bit_uint32 (i w : Z) :
  0 <= i < 32 -> is_uint32 w -> is_uint32 (flip_bit i w).
Proof.
  intros Hi Hw. apply lxor_uint32; [assumption|].
  unfold is_uint32. split; [apply Z.pow_nonneg; lia|].
  apply Z.pow_lt_mono_r; lia.
Qed.

Lemma flip_bit_neq (i w : Z) : 0 <= i -> flip_bit i w <> w.
Proof.
  intros Hi E. unfold flip_bit in E.
  assert (H : Z.lxor w (2 ^ i) = Z.lxor w 0) by now rewrite Z.lxor_0_r.
  apply lxor_cancel_l in H.
  assert (0 < 2 ^ i) by (apply Z.pow_pos_nonneg; lia). lia.
Qed.

End HashFacts.

Section HashProperties.
Import Hash.

(** C9: the hash is a function of the three 32-bit patterns (equal patterns
    give equal results, and the result is a 32-bit value), and inverting any
    single bit of any one of the three patterns, the other two unchanged,
    changes the result. *)
Theorem hash_deterministic_bit_sensitive (a b c i : Z) :
  is_uint32 a -> is_uint32 b -> is_uint32 c -> 0 <= i < 32 ->
  is_uint32 (hash a b c) /\
  (forall a' b' c', a' = a -> b' = b -> c' = c -> hash a' b' c' = hash a b c) /\
  hash (flip_bit i a) b c <> hash a b c /\
  hash a (flip_bit i b) c <> hash a b c /\
  hash a b (flip_bit i c) <> hash a b c.
Proof.
  intros Ha Hb Hc Hi.
  split; [apply hash_uint32|].
  split; [now intros a' b' c' -> -> ->|].
  repeat split; intros E.
  - apply hash_inj_x in E; auto using flip_bit_uint32.
    apply (flip_bit_neq i a); auto; lia.
  - apply hash_inj_y in E; auto using flip_bit_uint32.
    apply (flip_bit_neq i b); auto; lia.
  - apply hash_inj_z in E; auto using flip_bit_uint32.
    apply (flip_bit_neq i c); auto; lia.
Qed.

Lemma hash_deterministic_bit_sensitive_witness :
  is_uint32 (hash 0x3f800000 0 0) /\
  (forall a' b' c', a' = 0x3f800000 -> b' = 0 -> c' = 0 ->
     hash a' b' c' = hash 0x3f800000 0 0) /\
  hash (flip_bit 23 0x3f800000) 0 0 <> hash 0x3f800000 0 0 /\
  hash 0x3f800000 (flip_bit 23 0) 0 <> hash 0x3f800000 0 0 /\
  hash 0x3f800000 0 (flip_bit 23 0) <> hash 0x3f800000 0 0.
Proof.
  apply (hash_deterministic_bit_sensitive 0x3f800000 0 0 23);
    unfold is_uint32; lia.
Defined.

End HashProperties.

(** * Properties of the loader *)

Section LoaderFacts.
Import Loader.

Lemma occupied_le (bs : list (option nat)) : (occupied bs <= length bs)%nat.
Proof. induction bs as [|[p|] bs IH]; simpl; lia. Qed.

Lemma occupied_lt (bs : list (option nat)) (i : nat) :
  bs !! i = Some None -> (occupied bs < length bs)%nat.
Proof.
  revert i; induction bs as [|[p|] bs IH]; intros [|i] H; simpl in *;
    try discriminate.
  - apply IH in H. lia.
  - pose proof (occupied_le bs). lia.
  - apply IH in H. lia.
Qed.

Lemma occupied_insert (bs : list (option nat)) (i p : nat) :
  bs !! i = Some None -> occupied (<[i := Some p]> bs) = S (occupied bs).
Proof.
  revert i; induction bs as [|[q|] bs IH]; intros [|i] H; simpl in *;
    try discriminate; try reflexivity.
  - f_equal. now apply IH.
  - now apply IH.
Qed.

Lemma allocated_insert (ns : list (option node_t)) (p : nat) (nd : node_t) :
  ns !! p = Some None -> allocated (<[p := Some nd]> ns) = S (allocated ns).
Proof.
  revert p; induction ns as [|[q|] ns IH]; intros [|p] H; simpl in *;
    try discriminate; try reflexivity.
  - f_equal. now apply IH.
  - now apply IH.
Qed.

(** The representation invariant of the parse, for a table of [nb]
    buckets. *)
Record inv (nb : Z) (st : state) : Prop := {
  inv_buckets : length (buckets st) = Z.to_nat nb;
  inv_vertices : length (unique_vertices st) = Z.to_nat nb;
  inv_nodes : length (preallocated_nodes st) = Z.to_nat nb;
  inv_next : new_node_index st = num_unique_vertices st;
  inv_count : num_unique_vertices st = occupied (buckets st);
  inv_alloc : allocated (preallocated_nodes st) = num_unique_vertices st;
  inv_fresh : forall p, (num_unique_vertices st <= p)%nat ->
      (p < Z.to_nat nb)%nat ->
      preallocated_nodes st !! p = Some None /\
      unique_vertices st !! p = Some None;
  inv_bucket : forall i p, buckets st !! i = Some (Some p) ->
      (p < num_unique_vertices st)%nat /\
      exists v, unique_vertices st !! p = Some (Some v) /\ bucket_of nb v = i;
  inv_node : forall p, (p < num_unique_vertices st)%nat ->
      exists v, unique_vertices st !! p = Some (Some v) /\
        preallocated_nodes st !! p
          = Some (Some {| key := v; value := Z.of_nat p; next := None |}) /\
        buckets st !! bucket_of nb v = Some (Some p)
}.

Lemma inv_init (num_tris : Z) : inv (wrap32 (3 * num_tris)) (init num_tris).
Proof.
  set (nb := wrap32 (3 * num_tris)).
  assert (Hocc : forall n, occupied (replicate n None) = 0%nat)
    by (induction n; simpl; auto).
  assert (Hall : forall n, allocated (replicate n (@None node_t)) = 0%nat)
    by (induction n; simpl; auto).
  constructor; unfold init; fold nb; cbn [buckets unique_vertices preallocated_nodes new_node_index
      num_unique_vertices];
    rewrite ?length_replicate; auto.
  - intros p _ Hp. split; apply lookup_replicate_2; lia.
  - intros i p H. apply lookup_replicate in H as [H _]. discriminate.
  - intros p H. lia.
Qed.

Lemma bucket_of_lt (nb : Z) (v : vec3_t) :
  0 < nb -> (bucket_of nb v < Z.to_nat nb)%nat.
Proof.
  intros H. unfold bucket_of.
  pose proof (Z.mod_pos_bound (Hash.hash (x v) (y v) (z v)) nb H). lia.
Qed.

(** One vertex: the step is defined, and it keeps the invariant. *)
Lemma dedup_vertex_inv (nb : Z) (st : state) (v : vec3_t) :
  0 < nb < 2 ^ 32 -> inv nb st ->
  exists st', dedup_vertex nb st v = Some st' /\ inv nb st'.
Proof.
  intros Hnb I.
  assert (Hnb0 : nb <> 0) by lia.
  unfold dedup_vertex.
  replace (Z.to_nat (Hash.hash (x v) (y v) (z v) mod nb))
    with (bucket_of nb v) by reflexivity.
  destruct (Z.eqb_spec nb 0) as [?|_]; [contradiction|].
  pose proof (bucket_of_lt nb v ltac:(lia)) as Hb.
  destruct (buckets st !! bucket_of nb v) as [[q|]|] eqn:E.
  - eauto.
  - pose proof (occupied_lt _ _ E) as Hlt.
    rewrite <- (inv_count _ _ I), (inv_buckets _ _ I) in Hlt.
    rewrite (inv_next _ _ I), (inv_nodes _ _ I), (inv_vertices _ _ I).
    destruct (decide _) as [_|Hn]; [|lia].
    eexists; split; [reflexivity|].
    destruct (inv_fresh _ _ I (num_unique_vertices st)) as [Fn Fv]; [lia..|].
    constructor; cbn [buckets unique_vertices preallocated_nodes new_node_index
      num_unique_vertices]; rewrite ?length_insert;
      try apply I; auto.
    + rewrite occupied_insert by assumption. f_equal. apply I.
    + rewrite allocated_insert by assumption. f_equal. apply I.
    + intros p Hp Hp'.
      rewrite !list_lookup_insert_ne by lia.
      apply (inv_fresh _ _ I); lia.
    + intros i p Hip.
      destruct (decide (i = bucket_of nb v)) as [->|Hne].
      * rewrite list_lookup_insert_eq in Hip
          by (rewrite (inv_buckets _ _ I); lia).
        injection Hip as <-. split; [lia|].
        exists v. split; [|reflexivity].
        apply list_lookup_insert_eq. rewrite (inv_vertices _ _ I). lia.
      * rewrite list_lookup_insert_ne in Hip by congruence.
        destruct (inv_bucket _ _ I _ _ Hip) as (Hp & w & Hw & Hbw).
        split; [lia|]. exists w. split; [|assumption].
        rewrite list_lookup_insert_ne by lia. assumption.
    + intros p Hp.
      destruct (decide (p = num_unique_vertices st)) as [->|Hne].
      * exists v. rewrite !list_lookup_insert_eq
          by (rewrite ?(inv_vertices _ _ I), ?(inv_nodes _ _ I),
                ?(inv_buckets _ _ I); lia).
        rewrite wrap32_small by (unfold is_uint32; lia). auto.
      * destruct (inv_node _ _ I p) as (w & Hw & Hn & Hbw); [lia|].
        exists w. rewrite !list_lookup_insert_ne by lia.
        split; [assumption|]. split; [assumption|].
        rewrite list_lookup_insert_ne by congruence. assumption.
  - apply lookup_ge_None in E. rewrite (inv_buckets _ _ I) in E. lia.
Qed.

Lemma dedup_vertices_app (nb : Z) (st : state) (us ws : list vec3_t) :
  dedup_vertices nb st (us ++ ws)
  = match dedup_vertices nb st us with
    | Some st' => dedup_vertices nb st' ws
    | None => None
    end.
Proof.
  revert st; induction us as [|u us IH]; intros st; simpl; [reflexivity|].
  destruct (dedup_vertex nb st u); auto.
Qed.

Lemma dedup_vertices_inv (nb : Z) (vs : list vec3_t) (st : state) :
  0 < nb < 2 ^ 32 -> inv nb st ->
  exists st', dedup_vertices nb st vs = Some st' /\ inv nb st'.
Proof.
  intros Hnb. revert st; induction vs as [|v vs IH]; intros st I; simpl.
  - eauto.
  - destruct (dedup_vertex_inv nb st v Hnb I) as (st1 & -> & I1). auto.
Qed.

(** A step adds at most one vertex and removes none. *)
Lemma dedup_vertex_count (nb : Z) (st st' : state) (v : vec3_t) :
  dedup_vertex nb st v = Some st' ->
  (num_unique_vertices st <= num_unique_vertices st'
   <= S (num_unique_vertices st))%nat.
Proof.
  unfold dedup_vertex. destruct (nb =? 0); [discriminate|].
  destruct (buckets st !! _) as [[q|]|]; try discriminate.
  - intros [= <-]. lia.
  - destruct (decide _); [|discriminate].
    intros H; apply (inj Some) in H; subst st'.
    cbn [num_unique_vertices]. lia.
Qed.

Lemma dedup_vertices_count (nb : Z) (vs : list vec3_t) (st st' : state) :
  dedup_vertices nb st vs = Some st' ->
  (num_unique_vertices st <= num_unique_vertices st')%nat.
Proof.
  revert st; induction vs as [|v vs IH]; intros st; simpl.
  - intros [= <-]. lia.
  - destruct (dedup_vertex nb st v) as [st1|] eqn:E; [|discriminate].
    intros H. apply IH in H. apply dedup_vertex_count in E. lia.
Qed.

(** A bucket that points to a node keeps pointing to it, and the node is
    not written again. *)
Lemma dedup_vertex_head (nb : Z) (st st' : state) (v : vec3_t) (i : nat)
    (nd : node_t) :
  inv nb st -> dedup_vertex nb st v = Some st' ->
  head_node st i = Some nd -> head_node st' i = Some nd.
Proof.
  intros I. unfold dedup_vertex. destruct (nb =? 0); [discriminate|].
  destruct (buckets st !! _) as [[q|]|] eqn:E; try discriminate.
  - now intros [= <-].
  - destruct (decide _); [|discriminate].
    intros H; apply (inj Some) in H; subst st'.
    unfold head_node; cbn [buckets preallocated_nodes].
    destruct (buckets st !! i) as [[p|]|] eqn:Ei; try discriminate.
    destruct (inv_bucket _ _ I _ _ Ei) as [Hp _].
    rewrite list_lookup_insert_ne by congruence. rewrite Ei.
    rewrite list_lookup_insert_ne by (rewrite (inv_next _ _ I); lia).
    auto.
Qed.

Lemma dedup_vertices_head (nb : Z) (vs : list vec3_t) (st st' : state)
    (i : nat) (nd : node_t) :
  0 < nb < 2 ^ 32 -> inv nb st -> dedup_vertices nb st vs = Some st' ->
  head_node st i = Some nd -> head_node st' i = Some nd.
Proof.
  intros Hnb. revert st; induction vs as [|v vs IH]; intros st I; simpl.
  - now intros [= <-].
  - destruct (dedup_vertex_inv nb st v Hnb I) as (st1 & E & I1). rewrite E.
    intros H Hd. apply (IH st1 I1 H).
    exact (dedup_vertex_head nb st st1 v i nd I E Hd).
Qed.

(** After a vertex is processed its bucket points to a node. *)
Lemma dedup_vertex_indexed (nb : Z) (st st' : state) (v : vec3_t) :
  0 < nb < 2 ^ 32 -> inv nb st -> dedup_vertex nb st v = Some st' ->
  exists nd, head_node st' (bucket_of nb v) = Some nd.
Proof.
  intros Hnb I E.
  destruct (dedup_vertex_inv nb st v Hnb I) as (st1 & E1 & I1).
  rewrite E in E1. injection E1 as <-.
  assert (Hb : exists p, buckets st' !! bucket_of nb v = Some (Some p)).
  { revert E. unfold dedup_vertex. destruct (nb =? 0); [discriminate|].
    replace (Z.to_nat (Hash.hash (x v) (y v) (z v) mod nb))
      with (bucket_of nb v) by reflexivity.
    destruct (buckets st !! _) as [[q|]|] eqn:Eb; try discriminate.
    - intros [= <-]. eauto.
    - destruct (decide _); [|discriminate].
    intros H; apply (inj Some) in H; subst st'.
      cbn [buckets]. eexists. apply list_lookup_insert_eq.
      apply lookup_lt_Some in Eb. assumption. }
  destruct Hb as [p Hp].
  destruct (inv_bucket _ _ I1 _ _ Hp) as [Hlt _].
  destruct (inv_node _ _ I1 p Hlt) as (w & _ & Hn & _).
  unfold head_node. rewrite Hp, Hn. eauto.
Qed.

(** *** The reads *)

Lemma le_value_bound (bs : list byte) :
  0 <= le_value bs < 256 ^ Z.of_nat (length bs).
Proof.
  induction bs as [|b bs IH]; [simpl; lia|].
  cbn [le_value length].
  pose proof (Byte.to_N_bounded b).
  rewrite Nat2Z.inj_succ, Z.pow_succ_r by lia. lia.
Qed.

Lemma triangle_count_range (f : FILE) : is_uint32 (triangle_count f).
Proof.
  unfold is_uint32, triangle_count.
  pose proof (le_value_bound (take 4 (drop 80 (data f)))) as H.
  assert (Hl : (length (take 4 (drop 80 (data f))) <= 4)%nat)
    by (rewrite length_take; lia).
  assert (256 ^ Z.of_nat (length (take 4 (drop 80 (data f)))) <= 256 ^ 4)
    by (apply Z.pow_le_mono_r; lia).
  change (2 ^ 32) with (256 ^ 4). lia.
Qed.

(** The bucket count is positive as soon as there is a triangle, and it is
    at most three times the triangle count. *)
Lemma num_buckets_range (num_tris : Z) :
  is_uint32 num_tris -> 0 < num_tris ->
  0 < wrap32 (3 * num_tris) < 2 ^ 32 /\ wrap32 (3 * num_tris) <= 3 * num_tris.
Proof.
  unfold is_uint32, wrap32. intros H Hpos.
  pose proof (Z.mod_pos_bound (3 * num_tris) (2 ^ 32) ltac:(lia)) as Hm.
  pose proof (Z.div_mod (3 * num_tris) (2 ^ 32) ltac:(lia)) as Hd.
  pose proof (Z.mod_le (3 * num_tris) (2 ^ 32) ltac:(lia) ltac:(lia)).
  change (2 ^ 32) with 4294967296 in *.
  split; [|assumption].
  split; [|lia].
  destruct (Z.eq_dec ((3 * num_tris) mod 4294967296) 0) as [E|]; [|lia].
  rewrite E in Hd.
  assert (0 <= 3 * num_tris / 4294967296 < 3)
    by (split; [apply Z.div_pos; lia | apply Z.div_lt_upper_bound; lia]).
  lia.
Qed.

Lemma read_triangle_length (f : FILE) (r : list vec3_t * FILE) :
  read_triangle f = Ok r -> length (fst r) = 3%nat.
Proof.
  unfold read_triangle.
  destruct (fread 12 f) as [r1|]; [|discriminate]. cbn [or_exit bind].
  destruct (fread 36 (snd r1)) as [r2|]; [|discriminate]. cbn [or_exit bind].
  destruct (fread 2 (snd r2)) as [r3|]; [|discriminate]. cbn [or_exit bind].
  now intros [= <-].
Qed.

Lemma stream_vertices_length (n : nat) (f : FILE) :
  (length (stream_vertices n f) <= 3 * n)%nat.
Proof.
  revert f; induction n as [|n IH]; intros f; cbn [stream_vertices length].
  - lia.
  - destruct (read_triangle f) as [r| |] eqn:Er; cbn [length]; try lia.
    rewrite length_app, (read_triangle_length _ _ Er).
    specialize (IH (snd r)). lia.
Qed.

(** A parse that completes has read all the records and folded
    [dedup_vertex] over their vertices. *)
Lemma parse_triangles_ok (nb : Z) (n : nat) (f : FILE) (st st' : state) :
  0 < nb < 2 ^ 32 -> inv nb st -> parse_triangles n nb f st = Ok st' ->
  length (stream_vertices n f) = (3 * n)%nat /\
  dedup_vertices nb st (stream_vertices n f) = Some st'.
Proof.
  intros Hnb. revert f st; induction n as [|n IH]; intros f st I.
  - intros [= <-]. auto.
  - cbn [parse_triangles stream_vertices].
    destruct (read_triangle f) as [r| |] eqn:Er; try discriminate.
    cbn [bind].
    destruct (dedup_vertices_inv nb (fst r) st Hnb I) as (st1 & E1 & I1).
    rewrite E1. cbn [or_undefined bind]. intros H.
    destruct (IH _ _ I1 H) as (Hl & Hd).
    rewrite length_app, (read_triangle_length _ _ Er), Hl.
    split; [lia|]. rewrite dedup_vertices_app, E1. assumption.
Qed.

Lemma load_ok (f : FILE) (st : state) :
  load f = Ok st ->
  length (vertices f) = (3 * Z.to_nat (triangle_count f))%nat /\
  state_after (triangle_count f) (vertices f) (length (vertices f)) = Some st.
Proof.
  unfold load, fseek_cur.
  destruct (seekable f) eqn:Es; [|discriminate]. cbn [or_exit bind].
  unfold fread at 1. cbn [data seekable].
  destruct (decide _) as [Hlen|]; [|discriminate]. cbn [or_exit bind fst snd].
  rewrite drop_drop. fold (triangle_count f).
  replace (mk_file true (drop (80 + 4) (data f))) with (body f)
    by (unfold body; now rewrite Es).
  pose proof (triangle_count_range f) as Hr.
  unfold state_after, vertices. rewrite firstn_all.
  destruct (Z.eq_dec (triangle_count f) 0) as [E0|Hn0].
  - rewrite E0. change (Z.to_nat 0) with 0%nat.
    cbn [parse_triangles stream_vertices].
    intros [= <-]. auto.
  - destruct (num_buckets_range (triangle_count f) Hr) as [Hnb _];
      [unfold is_uint32 in Hr; lia|].
    intros H.
    apply (parse_triangles_ok _ _ _ _ _ Hnb (inv_init _) H).
Qed.

(** A parse never leaves the defined behaviour of C: every array access of
    the loop is in range. *)
Lemma parse_triangles_defined (nb : Z) (n : nat) (f : FILE) (st : state) :
  0 < nb < 2 ^ 32 -> inv nb st -> parse_triangles n nb f st <> Undefined.
Proof.
  intros Hnb. revert f st; induction n as [|n IH]; intros f st I.
  - discriminate.
  - cbn [parse_triangles].
    destruct (read_triangle f) as [r| |] eqn:Er; cbn [bind].
    + destruct (dedup_vertices_inv nb (fst r) st Hnb I) as (st1 & E1 & I1).
      rewrite E1. cbn [or_undefined bind]. now apply IH.
    + discriminate.
    + revert Er. unfold read_triangle.
      destruct (fread 12 f) as [r1|]; [|discriminate]. cbn [or_exit bind].
      destruct (fread 36 (snd r1)) as [r2|]; [|discriminate].
      cbn [or_exit bind].
      destruct (fread 2 (snd r2)) as [r3|]; discriminate.
Qed.

Lemma load_defined (f : FILE) : load f <> Undefined.
Proof.
  unfold load, fseek_cur.
  destruct (seekable f); [|discriminate]. cbn [or_exit bind].
  destruct (fread 4 _) as [r|] eqn:E; [|discriminate]. cbn [or_exit bind].
  assert (Hr : is_uint32 (le_value (fst r))).
  { revert E. unfold fread. destruct (decide _); [|discriminate].
    intros [= <-]. cbn [fst data]. apply (triangle_count_range f). }
  destruct (Z.eq_dec (le_value (fst r)) 0) as [E0|Hn0].
  - rewrite E0. discriminate.
  - destruct (num_buckets_range _ Hr) as [Hnb _];
      [unfold is_uint32 in Hr; lia|].
    apply parse_triangles_defined; [assumption|apply inv_init].
Qed.

Lemma read_triangle_ok (f : FILE) :
  (50 <= length (data f))%nat ->
  exists r, read_triangle f = Ok r /\
            length (data (snd r)) = (length (data f) - 50)%nat.
Proof.
  intros Hl. unfold read_triangle, fread.
  destruct (decide _) as [_|]; [|lia]. cbn [or_exit bind snd data seekable].
  rewrite length_drop.
  destruct (decide _) as [_|]; [|lia]. cbn [or_exit bind snd fst data seekable].
  rewrite !length_drop.
  destruct (decide _) as [_|]; [|lia]. cbn [or_exit bind snd data seekable].
  eexists. split; [reflexivity|]. cbn [snd data]. rewrite !length_drop. lia.
Qed.

(** A stream that holds all its records is parsed to the end. *)
Lemma parse_triangles_complete (nb : Z) (n : nat) (f : FILE) (st : state) :
  0 < nb < 2 ^ 32 -> inv nb st -> (50 * n <= length (data f))%nat ->
  exists st', parse_triangles n nb f st = Ok st'.
Proof.
  intros Hnb. revert f st; induction n as [|n IH]; intros f st I Hl.
  - eexists. reflexivity.
  - cbn [parse_triangles].
    destruct (read_triangle_ok f ltac:(lia)) as (r & -> & Hr). cbn [bind].
    destruct (dedup_vertices_inv nb (fst r) st Hnb I) as (st1 & -> & I1).
    cbn [or_undefined bind]. apply IH; [assumption|lia].
Qed.

(** A seekable file that holds its header, its count and all its records
    loads. *)
Lemma load_complete (f : FILE) :
  seekable f = true ->
  (84 + 50 * Z.to_nat (triangle_count f) <= length (data f))%nat ->
  exists st, load f = Ok st.
Proof.
  intros Hs Hl. unfold load, fseek_cur. rewrite Hs. cbn [or_exit bind].
  unfold fread at 1. cbn [data seekable]. rewrite length_drop.
  destruct (decide _) as [_|]; [|lia]. cbn [or_exit bind fst snd].
  fold (triangle_count f).
  pose proof (triangle_count_range f) as Hr.
  destruct (Z.eq_dec (triangle_count f) 0) as [E0|Hn0].
  - rewrite E0. eexists. reflexivity.
  - destruct (num_buckets_range (triangle_count f) Hr) as [Hnb _];
      [unfold is_uint32 in Hr; lia|].
    apply parse_triangles_complete; [assumption|apply inv_init|].
    cbn [data]. rewrite !length_drop. lia.
Qed.

(** Every prefix of the vertex stream leads to a state, and the state
    satisfies the invariant. *)
Lemma state_after_inv (f : FILE) (k : nat) :
  exists sk, state_after (triangle_count f) (vertices f) k = Some sk /\
             inv (wrap32 (3 * triangle_count f)) sk.
Proof.
  pose proof (triangle_count_range f) as Hr. unfold state_after.
  destruct (Z.eq_dec (triangle_count f) 0) as [E0|Hn0].
  - unfold vertices. rewrite E0. change (Z.to_nat 0) with 0%nat.
    cbn [stream_vertices].
    rewrite take_nil. cbn [dedup_vertices]. eexists; split; [reflexivity|].
    apply inv_init.
  - destruct (num_buckets_range (triangle_count f) Hr) as [Hnb _];
      [unfold is_uint32 in Hr; lia|].
    apply dedup_vertices_inv; [assumption|apply inv_init].
Qed.

Lemma state_after_le (f : FILE) (j k : nat) (sj sk : state) :
  (j <= k)%nat ->
  state_after (triangle_count f) (vertices f) j = Some sj ->
  state_after (triangle_count f) (vertices f) k = Some sk ->
  dedup_vertices (wrap32 (3 * triangle_count f)) sj
    (drop j (take k (vertices f))) = Some sk.
Proof.
  unfold state_after. intros Hjk Hj Hk.
  rewrite <- (take_drop j (take k (vertices f))) in Hk.
  rewrite take_take, Nat.min_l in Hk by lia.
  rewrite dedup_vertices_app, Hj in Hk. assumption.
Qed.

Lemma inv_table_ok (nb : Z) (st : state) :
  0 <= nb < 2 ^ 32 -> inv nb st -> table_ok st.
Proof.
  intros Hnb I.
  assert (Hhead : forall i nd, head_node st i = Some nd ->
            exists p v, buckets st !! i = Some (Some p) /\
              (p < num_unique_vertices st)%nat /\
              unique_vertices st !! p = Some (Some v) /\
              nd = {| key := v; value := Z.of_nat p; next := None |}).
  { intros i nd. unfold head_node.
    destruct (buckets st !! i) as [[p|]|] eqn:Ei; try discriminate.
    destruct (inv_bucket _ _ I _ _ Ei) as [Hp _].
    destruct (inv_node _ _ I p Hp) as (v & Hv & Hn & _).
    rewrite Hn. intros [= <-]. eauto 10. }
  constructor; try apply I.
  - intros i p Hi. unfold head_node. rewrite Hi.
    destruct (inv_bucket _ _ I _ _ Hi) as [Hp _].
    destruct (inv_node _ _ I p Hp) as (v & _ & -> & _). eauto.
  - intros i nd H. destruct (Hhead _ _ H) as (p & v & _ & Hp & _ & ->).
    cbn [value]. lia.
  - intros i nd H. destruct (Hhead _ _ H) as (p & v & _ & Hp & Hv & ->).
    cbn [value key]. now rewrite Nat2Z.id.
  - intros i nd H. now destruct (Hhead _ _ H) as (p & v & _ & _ & _ & ->).
  - intros i [|fuel] [p|] Hi; cbn [chain length]; try lia.
    destruct (inv_bucket _ _ I _ _ Hi) as [Hp _].
    destruct (inv_node _ _ I p Hp) as (v & _ & -> & _).
    cbn [next]. destruct fuel; cbn [chain length]; lia.
Qed.

Lemma state_after_head (f : FILE) (j k : nat) (sj sk : state) (i : nat)
    (nd : node_t) :
  (j <= k)%nat ->
  state_after (triangle_count f) (vertices f) j = Some sj ->
  state_after (triangle_count f) (vertices f) k = Some sk ->
  head_node sj i = Some nd -> head_node sk i = Some nd.
Proof.
  intros Hjk Hj Hk Hd.
  pose proof (state_after_le f j k sj sk Hjk Hj Hk) as Hstep.
  destruct (state_after_inv f j) as (sj' & Hj' & Ij).
  rewrite Hj in Hj'. injection Hj' as <-.
  pose proof (triangle_count_range f) as Hr.
  destruct (Z.eq_dec (triangle_count f) 0) as [E0|Hn0].
  - revert Hstep. unfold vertices. rewrite E0.
    change (Z.to_nat 0) with 0%nat. cbn [stream_vertices]. rewrite take_nil, drop_nil.
    cbn [dedup_vertices]. now intros [= <-].
  - destruct (num_buckets_range (triangle_count f) Hr) as [Hnb _];
      [unfold is_uint32 in Hr; lia|].
    eapply dedup_vertices_head; eauto.
Qed.

(** Processing occurrence [i] leaves a node in the bucket of its vertex. *)
Lemma state_after_indexed (f : FILE) (i : nat) (v : vec3_t) :
  vertices f !! i = Some v ->
  exists si nd,
    state_after (triangle_count f) (vertices f) (S i) = Some si /\
    head_node si (bucket_of (wrap32 (3 * triangle_count f)) v) = Some nd.
Proof.
  intros Hv.
  pose proof (triangle_count_range f) as Hr.
  assert (Hpos : 0 < triangle_count f).
  { destruct (Z.eq_dec (triangle_count f) 0) as [E0|]; [|unfold is_uint32 in Hr; lia].
    revert Hv. unfold vertices. rewrite E0. change (Z.to_nat 0) with 0%nat.
    cbn [stream_vertices].
    now rewrite lookup_nil. }
  destruct (num_buckets_range (triangle_count f) Hr Hpos) as [Hnb _].
  destruct (state_after_inv f i) as (s0 & H0 & I0).
  destruct (state_after_inv f (S i)) as (si & Hi & Ii).
  exists si.
  assert (Hstep : dedup_vertex (wrap32 (3 * triangle_count f)) s0 v = Some si).
  { revert Hi. unfold state_after in *.
    rewrite (take_S_r _ _ _ Hv), dedup_vertices_app, H0.
    cbn [dedup_vertices]. now destruct (dedup_vertex _ s0 v). }
  destruct (dedup_vertex_indexed _ _ _ _ Hnb I0 Hstep) as [nd Hnd].
  eauto.
Qed.

End LoaderFacts.

(** The sample meshes load, and the vertex streams are as written. *)
Example load_shared_edge :
  exists st, Loader.load Mesh.shared_edge = Ok st /\
             Loader.num_unique_vertices st = 4%nat.
Proof. eexists. split; vm_compute; reflexivity. Qed.

Section LoaderProperties.
Import Loader.

(** C1, evaluated: in the mesh [Mesh.colliding_triangle] the third corner
    (0,0,1) has no bit-identical key in the table, yet it is not appended;
    the parse ends with two unique vertices, the bucket of (0,0,1) still
    points to the single node of (0,1,0) and the table returns index 1 for
    it. *)
Theorem collision_drops_vertex :
  exists st, load Mesh.colliding_triangle = Ok st /\
    vertices Mesh.colliding_triangle
      = [mk_vec3 0 0 0; mk_vec3 0 Mesh.f1 0; mk_vec3 0 0 Mesh.f1] /\
    num_unique_vertices st = 2%nat /\
    unique_vertices st
      = [Some (mk_vec3 0 0 0); Some (mk_vec3 0 Mesh.f1 0); None] /\
    head_node st (bucket_of 3 (mk_vec3 0 0 Mesh.f1))
      = Some {| key := mk_vec3 0 Mesh.f1 0; value := 1; next := None |}.
Proof.
  eexists. split; [vm_compute; reflexivity|].
  split; [vm_compute; reflexivity|].
  split; [vm_compute; reflexivity|].
  split; vm_compute; reflexivity.
Qed.

(** C2: a file made of any 80-byte header, the triangle count 1 and one
    record (any normal, any attribute count, anything after it) whose
    corners are (0,0,0), (1,0,0) and (0,1,0) loads with three unique
    vertices. *)
Theorem minimal_mesh_three_vertices (header normal attribute rest : list byte) :
  length header = 80%nat -> length normal = 12%nat ->
  length attribute = 2%nat ->
  exists st,
    load (mk_file true
            (header ++ Mesh.word_bytes 1 ++ normal
             ++ Mesh.corners (mk_vec3 Mesh.f0 Mesh.f0 Mesh.f0)
                             (mk_vec3 Mesh.f1 Mesh.f0 Mesh.f0)
                             (mk_vec3 Mesh.f0 Mesh.f1 Mesh.f0)
             ++ attribute ++ rest)) = Ok st /\
    num_unique_vertices st = 3%nat.
Proof.
  intros Hh Hn Ha.
  assert (Hfread : forall n s (a b : list byte), length a = n ->
            fread n (mk_file s (a ++ b)) = Some (a, mk_file s b)).
  { intros n s a b Hl. unfold fread. cbn [data seekable].
    rewrite length_app.
    destruct (decide _) as [_|]; [|lia].
    rewrite take_app_length', drop_app_length' by done. reflexivity. }
  unfold load, fseek_cur. cbn [seekable data or_exit bind].
  rewrite drop_app_length' by done.
  rewrite Hfread by reflexivity. cbn [or_exit bind fst snd].
  change (le_value (Mesh.word_bytes 1)) with 1.
  change (Z.to_nat 1) with 1%nat. cbn [parse_triangles].
  unfold read_triangle.
  rewrite Hfread by assumption. cbn [or_exit bind fst snd].
  rewrite Hfread by reflexivity. cbn [or_exit bind fst snd].
  rewrite Hfread by assumption. cbn [or_exit bind fst snd].
  eexists. split; vm_compute; reflexivity.
Qed.

Lemma minimal_mesh_three_vertices_witness :
  exists st, load Mesh.one_triangle = Ok st /\ num_unique_vertices st = 3%nat.
Proof.
  apply (minimal_mesh_three_vertices (replicate 80 x00) (replicate 12 x00)
           (replicate 2 x00) []); reflexivity.
Defined.

(** C3: two occurrences of a vertex with the same bits, at any positions [i]
    and [j] of the vertex stream, are given the same unique-vertex index:
    the index the table holds for the vertex once occurrence [i] has been
    processed is the one it holds once occurrence [j] has been processed,
    and the one it holds at the end of a parse that completes. *)
Theorem same_bits_same_index (f : FILE) (i j : nat) (v : vec3_t) :
  vertices f !! i = Some v -> vertices f !! j = Some v ->
  let num_buckets := wrap32 (3 * triangle_count f) in
  exists idx si sj,
    state_after (triangle_count f) (vertices f) (S i) = Some si /\
    state_after (triangle_count f) (vertices f) (S j) = Some sj /\
    index_of num_buckets si v = Some idx /\
    index_of num_buckets sj v = Some idx /\
    forall st, load f = Ok st -> index_of num_buckets st v = Some idx.
Proof.
  intros Hi Hj nb.
  destruct (state_after_indexed f i v Hi) as (si & ndi & Si & Di).
  destruct (state_after_indexed f j v Hj) as (sj & ndj & Sj & Dj).
  fold nb in Di, Dj.
  assert (Hfinal : forall k sk nd st,
            state_after (triangle_count f) (vertices f) (S k) = Some sk ->
            head_node sk (bucket_of nb v) = Some nd ->
            (k < length (vertices f))%nat ->
            load f = Ok st -> index_of nb st v = Some (value nd)).
  { intros k sk nd st Sk Dk Hk Hl. apply load_ok in Hl as [_ Hl].
    unfold index_of.
    now rewrite (state_after_head f (S k) (length (vertices f)) sk st _ nd
                   ltac:(lia) Sk Hl Dk). }
  apply lookup_lt_Some in Hi as Hil. apply lookup_lt_Some in Hj as Hjl.
  destruct (le_lt_dec i j) as [Hij|Hji].
  - exists (value ndi), si, sj. unfold index_of.
    rewrite (state_after_head f (S i) (S j) si sj _ ndi ltac:(lia) Si Sj Di).
    rewrite Di. repeat split; auto. intros st. now apply (Hfinal i si).
  - exists (value ndj), si, sj. unfold index_of.
    rewrite (state_after_head f (S j) (S i) sj si _ ndj ltac:(lia) Sj Si Dj).
    rewrite Dj. repeat split; auto. intros st. now apply (Hfinal j sj).
Qed.

Lemma same_bits_same_index_witness :
  exists idx si sj st,
    state_after 2 (vertices Mesh.shared_edge) 2 = Some si /\
    state_after 2 (vertices Mesh.shared_edge) 4 = Some sj /\
    load Mesh.shared_edge = Ok st /\
    index_of 6 si (mk_vec3 Mesh.f1 0 0) = Some idx /\
    index_of 6 sj (mk_vec3 Mesh.f1 0 0) = Some idx /\
    index_of 6 st (mk_vec3 Mesh.f1 0 0) = Some idx.
Proof.
  destruct (same_bits_same_index Mesh.shared_edge 1 3 (mk_vec3 Mesh.f1 0 0)
              eq_refl eq_refl) as (idx & si & sj & Hi & Hj & Ii & Ij & Hl).
  assert (Hload : exists st, load Mesh.shared_edge = Ok st)
    by (eexists; vm_compute; reflexivity).
  destruct Hload as [st Hst].
  exists idx, si, sj, st. auto 10.
Defined.

(** C4: along the vertex stream of any file the number of unique vertices
    never decreases and never exceeds three times the triangle count; the
    same bound holds for the count a completed parse ends with. *)
Theorem unique_count_bounded_monotone (f : FILE) (j k : nat) :
  (j <= k)%nat ->
  exists sj sk,
    state_after (triangle_count f) (vertices f) j = Some sj /\
    state_after (triangle_count f) (vertices f) k = Some sk /\
    (num_unique_vertices sj <= num_unique_vertices sk)%nat /\
    Z.of_nat (num_unique_vertices sk) <= 3 * triangle_count f /\
    forall st, load f = Ok st ->
      (num_unique_vertices sk <= num_unique_vertices st)%nat /\
      Z.of_nat (num_unique_vertices st) <= 3 * triangle_count f.
Proof.
  intros Hjk.
  pose proof (triangle_count_range f) as Hr.
  assert (Hbound : forall s, inv (wrap32 (3 * triangle_count f)) s ->
            Z.of_nat (num_unique_vertices s) <= 3 * triangle_count f).
  { intros s I. pose proof (occupied_le (buckets s)) as Ho.
    rewrite <- (inv_count _ _ I), (inv_buckets _ _ I) in Ho.
    pose proof (wrap32_range (3 * triangle_count f)) as Hw.
    assert (wrap32 (3 * triangle_count f) <= 3 * triangle_count f)
      by (apply Z.mod_le; unfold is_uint32 in Hr; lia).
    unfold is_uint32 in Hw. lia. }
  destruct (state_after_inv f j) as (sj & Sj & Ij).
  destruct (state_after_inv f k) as (sk & Sk & Ik).
  exists sj, sk. repeat split; auto.
  - eapply dedup_vertices_count, state_after_le; eauto.
  - apply load_ok in H as [_ Hl].
    destruct (le_lt_dec k (length (vertices f))) as [Hk|Hk].
    + eapply dedup_vertices_count, (state_after_le f k); eauto.
    + unfold state_after in Sk, Hl.
      rewrite take_ge in Sk by lia. rewrite firstn_all in Hl.
      rewrite Sk in Hl. injection Hl as <-. lia.
  - apply load_ok in H as [_ Hl].
    destruct (state_after_inv f (length (vertices f))) as (s' & S' & I').
    rewrite Hl in S'. injection S' as <-. auto.
Qed.

Lemma unique_count_bounded_monotone_witness :
  exists sj sk st,
    state_after 2 (vertices Mesh.shared_edge) 2 = Some sj /\
    state_after 2 (vertices Mesh.shared_edge) 5 = Some sk /\
    load Mesh.shared_edge = Ok st /\
    (num_unique_vertices sj <= num_unique_vertices sk)%nat /\
    (num_unique_vertices sk <= num_unique_vertices st)%nat /\
    Z.of_nat (num_unique_vertices st) <= 3 * 2.
Proof.
  destruct (unique_count_bounded_monotone Mesh.shared_edge 2 5 ltac:(lia))
    as (sj & sk & Hj & Hk & Hle & Hb & Hl).
  assert (Hload : exists st, load Mesh.shared_edge = Ok st)
    by (eexists; vm_compute; reflexivity).
  destruct Hload as [st Hst]. destruct (Hl st Hst) as [H1 H2].
  exists sj, sk, st. auto 10.
Defined.

(** C10: after any number of vertices of the stream, and at the end of a
    parse that completes, every node a bucket points to holds a value below
    the unique-vertex count, the unique vertex at that index has the bits of
    the key of the node, as many nodes were taken from the arena as there
    are unique vertices, and no chain has more than one node: the [next] of
    every stored node is null. *)
Theorem table_invariant (f : FILE) (k : nat) :
  exists sk,
    state_after (triangle_count f) (vertices f) k = Some sk /\
    table_ok sk /\
    forall st, load f = Ok st -> table_ok st.
Proof.
  pose proof (wrap32_range (3 * triangle_count f)) as Hw.
  destruct (state_after_inv f k) as (sk & Sk & Ik).
  exists sk. split; [assumption|]. split.
  - eapply inv_table_ok; [|eassumption]. unfold is_uint32 in Hw. lia.
  - intros st Hl. apply load_ok in Hl as [_ Hl].
    destruct (state_after_inv f (length (vertices f))) as (s' & S' & I').
    rewrite Hl in S'. injection S' as <-.
    eapply inv_table_ok; [|eassumption]. unfold is_uint32 in Hw. lia.
Qed.

Lemma table_invariant_witness :
  exists sk st,
    state_after 2 (vertices Mesh.shared_edge) 4 = Some sk /\
    load Mesh.shared_edge = Ok st /\ table_ok sk /\ table_ok st.
Proof.
  destruct (table_invariant Mesh.shared_edge 4) as (sk & Hk & Ik & Hl).
  assert (Hload : exists st, load Mesh.shared_edge = Ok st)
    by (eexists; vm_compute; reflexivity).
  destruct Hload as [st Hst].
  exists sk, st. auto 10.
Defined.

End LoaderProperties.

(** * Properties of the ray caster *)

Section FloatFacts.

Lemma decode_fields (a : float) :
  F32.decode a
  = let s := Z.testbit a 31 in
    let e := (a / 2 ^ 23) mod 2 ^ 8 in
    let m := a mod 2 ^ 23 in
    if e =? 0 then
      match m with
      | Zpos p => S754_finite s p (-149)
      | _ => S754_zero s
      end
    else if e =? 255 then
      (if m =? 0 then S754_infinity s else S754_nan)
    else
      match m + 0x800000 with
      | Zpos p => S754_finite s p (e - 150)
      | _ => S754_nan
      end.
Proof.
  unfold F32.decode.
  change 0xff with (Z.ones 8). change 0x7fffff with (Z.ones 23).
  rewrite !Z.land_ones, Z.shiftr_div_pow2 by lia. reflexivity.
Qed.

(** A negative number compares below zero. *)
Lemma negative_ltb_zero (a : float) :
  F32.is_negative a -> F32.ltb a (#0)%f32 = true.
Proof.
  unfold F32.is_negative. intros Ha.
  unfold F32.ltb. change (F32.decode (#0)%f32) with (S754_zero false).
  rewrite decode_fields. cbv zeta.
  assert (Hs : Z.testbit a 31 = true).
  { rewrite Z.testbit_true by lia.
    replace (a / 2 ^ 31) with 1; [reflexivity|].
    apply Z.div_unique with (a - 2 ^ 31); lia. }
  rewrite Hs.
  pose proof (Z.div_mod a (2 ^ 23) ltac:(lia)) as Hd.
  pose proof (Z.mod_pos_bound a (2 ^ 23) ltac:(lia)) as Hm.
  pose proof (Z.div_mod (a / 2 ^ 23) (2 ^ 8) ltac:(lia)) as Hd'.
  pose proof (Z.mod_pos_bound (a / 2 ^ 23) (2 ^ 8) ltac:(lia)) as Hm'.
  assert (Hq : a / 2 ^ 23 / 2 ^ 8 = 1).
  { rewrite Z.div_div by lia. symmetry.
    apply Z.div_unique with (a - 2 ^ 31); lia. }
  rewrite Hq in Hd'.
  set (e := (a / 2 ^ 23) mod 2 ^ 8) in *.
  set (m := a mod 2 ^ 23) in *.
  change (2 ^ 23) with 8388608 in *. change (2 ^ 8) with 256 in *.
  destruct (Z.eqb_spec e 0) as [He|He].
  - destruct m as [|p|p] eqn:Em; [lia|reflexivity|lia].
  - destruct (Z.eqb_spec e 255) as [He'|He'].
    + destruct (Z.eqb_spec m 0) as [|Hm0]; [reflexivity|lia].
    + destruct (m + 8388608) as [|p|p] eqn:Em; [lia|reflexivity|lia].
Qed.

End FloatFacts.

Section RenderProperties.

(** C5: the intersection routine is the quadratic of the
    specification: with [a = dot(direction, direction)],
    [b = 2 dot(origin - center, direction)] and
    [c = dot(origin - center, origin - center) - radius * radius] it reports
    a hit exactly when [b * b - 4 * a * c < 0] is false; the hit is at the
    near root [(- b - sqrt(b * b - 4 * a * c)) / (2 * a)] whatever its sign;
    every component of the position is that of the origin plus that of the
    direction times [t]; every component of the normal is that of
    [position - center] multiplied by the single-precision reciprocal
    [1 / radius] of the radius, not divided by the radius.  Every operation
    is the single-precision one. *)
Theorem intersection_near_root (r : ray_t) (s : sphere_t) :
  ray_sphere_intersection_with_normal_and_position r s
  = Spec.intersect Spec.normal_reciprocal r s /\
  ray_sphere_intersection r s
  = (if F32.ltb (Spec.discriminant r s) (#0)%f32 then None
     else Some (Spec.near_root r s)) /\
  is_Some_b (ray_sphere_intersection_with_normal_and_position r s)
  = negb (F32.ltb (Spec.discriminant r s) (#0)%f32).
Proof.
  assert (E : ray_sphere_intersection r s
              = (if F32.ltb (Spec.discriminant r s) (#0)%f32 then None
                 else Some (Spec.near_root r s))).
  { unfold ray_sphere_intersection, Spec.near_root, Spec.discriminant,
      Spec.a, Spec.b, Spec.c, vec3_dot, vec3_sub.
    cbv zeta. cbn [x y z]. reflexivity. }
  unfold ray_sphere_intersection_with_normal_and_position, Spec.intersect.
  rewrite E.
  destruct (F32.ltb (Spec.discriminant r s) (#0)%f32).
  - split; [reflexivity|]. split; reflexivity.
  - unfold Spec.normal_reciprocal, Spec.point_at, vec3_add, vec3_scale,
      vec3_sub.
    cbv zeta. cbn [x y z]. split; [reflexivity|]. split; reflexivity.
Qed.

(** C5 with the normal as the quotient [(position - center) / radius]
    fails on a sphere of radius 7.  The ray from the origin along (0,0,-1)
    meets the sphere of radius 7 centred at (-6,-3,-5) at [t = 3], at the
    position (0,0,-3), where [position - center] is (6,3,2).  The routine
    returns the normal (6 * (1/7), 3 * (1/7), 2 * (1/7)), whose first two
    components are one unit in the last place above the quotients 6 / 7 and
    3 / 7. *)
Lemma normal_not_quotient :
  ray_sphere_intersection_with_normal_and_position Spec.ray7 Spec.sphere7
  = Some ((#3)%f32, mk_vec3 0x3f5b6db8 0x3edb6db8 0x3e924925,
          mk_vec3 (#0) (#0) (#(-3)))%f32 /\
  Spec.intersect Spec.normal_quotient Spec.ray7 Spec.sphere7
  = Some ((#3)%f32, mk_vec3 0x3f5b6db7 0x3edb6db7 0x3e924925,
          mk_vec3 (#0) (#0) (#(-3)))%f32 /\
  ray_sphere_intersection_with_normal_and_position Spec.ray7 Spec.sphere7
  <> Spec.intersect Spec.normal_quotient Spec.ray7 Spec.sphere7 /\
  (#6 / #7)%f32 = 0x3f5b6db7 /\ (#1 / #7)%f32 = 0x3e124925 /\
  (#6 * 0x3e124925)%f32 = 0x3f5b6db8.
Proof.
  split; [vm_compute; reflexivity|].
  split; [vm_compute; reflexivity|].
  split; [vm_compute; discriminate|].
  split; [vm_compute; reflexivity|].
  split; vm_compute; reflexivity.
Qed.

(** The same rounding on a radius of 3: a component 5 of
    [position - center] gives a normal one unit in the last place above
    5 / 3. *)
Example reciprocal_product_rounding :
  (#5 * (#1 / #3))%f32 = 0x3fd55556 /\ (#5 / #3)%f32 = 0x3fd55555.
Proof. split; vm_compute; reflexivity. Qed.

(** The near root is reported when it is negative: a sphere behind the
    origin of the ray is hit at [t = -3]. *)
Example near_root_behind_origin :
  ray_sphere_intersection_with_normal_and_position
    (mk_ray (mk_vec3 (#0) (#0) (#0)) (mk_vec3 (#0) (#0) (#(-1))))%f32
    (mk_sphere (mk_vec3 (#0) (#0) (#2)) (#1))%f32
  = Some ((#(-3)), mk_vec3 (#0) (#0) (#1), mk_vec3 (#0) (#0) (#3))%f32.
Proof. vm_compute. reflexivity. Qed.

(** C6: the ray from the origin along (0,0,-1) hits the sphere of radius 1
    centred at (0,0,-2) at [t = 1], at the position (0,0,-1), with the
    normal (0,0,1). *)
Theorem unit_sphere_hit :
  ray_sphere_intersection_with_normal_and_position
    (mk_ray (mk_vec3 (#0) (#0) (#0)) (mk_vec3 (#0) (#0) (#(-1))))%f32
    (mk_sphere (mk_vec3 (#0) (#0) (#(-2))) (#1))%f32
  = Some ((#1), mk_vec3 (#0) (#0) (#1), mk_vec3 (#0) (#0) (#(-1)))%f32.
Proof. vm_compute. reflexivity. Qed.

(** C8: whatever the surface position, the normal, the view direction, the
    hardness and [powf] are, a light whose power is negative shades to zero
    in both the diffuse and the specular component. *)
Theorem negative_power_no_light (powf : float -> float -> float)
    (pl : point_light_t)
    (surface_position surface_normal view_direction : vec3_t)
    (specular_hardness : float) :
  F32.is_negative (power pl) ->
  blinn_phong_shading powf pl surface_position surface_normal view_direction
                      specular_hardness
  = mk_lighting (mk_vec3 (#0) (#0) (#0))%f32 (mk_vec3 (#0) (#0) (#0))%f32.
Proof.
  intros H. unfold blinn_phong_shading.
  now rewrite (negative_ltb_zero _ H).
Qed.

Lemma negative_power_no_light_witness :
  blinn_phong_shading F32.powf_integral
    (mk_point_light (mk_vec3 (#(-1)) (#(-1)) (#0)) (mk_vec3 (#1) (#1) (#1))
                    (#(-1)))%f32
    (mk_vec3 (#0) (#0) (#(-1)))%f32 (mk_vec3 (#0) (#0) (#1))%f32
    (mk_vec3 (#0) (#0) (#(-1)))%f32 (#20)%f32
  = mk_lighting (mk_vec3 (#0) (#0) (#0))%f32 (mk_vec3 (#0) (#0) (#0))%f32.
Proof.
  apply negative_power_no_light. unfold F32.is_negative. vm_compute.
  split; [reflexivity | discriminate].
Defined.

(** The diffuse colour of the shading does not depend on [powf]. *)
Lemma shading_color_powf (powf powf' : float -> float -> float)
    (pl : point_light_t) (sp sn vd : vec3_t) (h : float) :
  color (blinn_phong_shading powf pl sp sn vd h)
  = color (blinn_phong_shading powf' pl sp sn vd h).
Proof.
  unfold blinn_phong_shading.
  destruct (F32.ltb (power pl) (#0)%f32); reflexivity.
Qed.

Lemma channels_draw (A B C : option Z) (i j : Z) :
  match A, B, C with
  | Some r, Some g, Some b => Some (mk_draw i j r g b)
  | _, _, _ => None
  end
  = match (match A, B, C with
           | Some r, Some g, Some b => Some (r, g, b)
           | _, _, _ => None
           end) with
    | Some (r, g, b) => Some (mk_draw i j r g b)
    | None => None
    end.
Proof. destruct A, B, C; reflexivity. Qed.

Lemma render_pixel_channels (powf : float -> float -> float) (i j : Z) :
  render_pixel powf i j
  = match pixel_lighting powf i j with
    | Some lighting =>
        match channels (color lighting) with
        | Some (r, g, b) => Some (mk_draw i j r g b)
        | None => None
        end
    | None => Some (mk_draw i j 0 0 0)
    end.
Proof.
  unfold render_pixel, pixel_lighting, channels.
  destruct (ray_sphere_intersection_with_normal_and_position _ _)
    as [[[depth normal] position]|]; [|reflexivity].
  cbv zeta. apply channels_draw.
Qed.

(** The calls of a frame are those of the pixels of the window. *)
Lemma render_frame_pixels (powf : float -> float -> float)
    (d : option draw_pixel) :
  In d (render_frame powf) <->
  exists i j, 0 <= i < width /\ 0 <= j < height /\ d = render_pixel powf i j.
Proof.
  unfold render_frame. rewrite in_flat_map. split.
  - intros (i & Hi & Hd).
    apply in_map_iff in Hi as (ni & <- & Hni). apply in_seq in Hni.
    apply in_map_iff in Hd as (j & <- & Hj).
    apply in_map_iff in Hj as (nj & <- & Hnj). apply in_seq in Hnj.
    exists (Z.of_nat ni), (Z.of_nat nj). unfold width, height in *.
    split; [lia|]. split; [lia|reflexivity].
  - intros (i & j & Hi & Hj & ->). exists i. split.
    + apply in_map_iff. exists (Z.to_nat i). split; [lia|].
      apply in_seq. unfold width in *. lia.
    + apply in_map_iff. exists j. split; [reflexivity|].
      apply in_map_iff. exists (Z.to_nat j). split; [lia|].
      apply in_seq. unfold height in *. lia.
Qed.

(** C7, as the code has it: the pixel written where the ray hits the sphere
    is made of the diffuse colour of the shading alone, each channel
    multiplied by 255, clamped to [0, 255] and converted to 8 bits; the
    specular colour is computed and not used, so the pixel is the same
    whatever [powf] returns; where the ray misses, the pixel is black. *)
Theorem render_pixel_diffuse_only (powf : float -> float -> float) (i j : Z) :
  render_pixel powf i j = diffuse_pixel powf i j /\
  (forall powf', render_pixel powf' i j = render_pixel powf i j) /\
  (is_Some_b (pixel_lighting powf i j) = false ->
   render_pixel powf i j = Some (mk_draw i j 0 0 0)).
Proof.
  split; [apply render_pixel_channels|]. split.
  - intros powf'. rewrite !render_pixel_channels. unfold pixel_lighting.
    destruct (ray_sphere_intersection_with_normal_and_position _ _)
      as [[[depth normal] position]|]; [|reflexivity].
    now rewrite (shading_color_powf powf' powf).
  - rewrite render_pixel_channels.
    destruct (pixel_lighting powf i j); [discriminate|reflexivity].
Qed.

(** The ray through pixel (0, 0) misses the sphere, and the pixel is
    black. *)
Lemma render_pixel_diffuse_only_witness :
  render_pixel F32.powf_integral 0 0 = Some (mk_draw 0 0 0 0 0).
Proof.
  apply (render_pixel_diffuse_only F32.powf_integral 0 0).
  vm_compute. reflexivity.
Defined.

(** C7 with the colours added fails at pixel (199, 173): the ray hits the
    sphere, the diffuse colour gives 77 in each channel, which is what is
    written, and the sum of the diffuse and the specular colour gives 79. *)
Lemma specular_not_added :
  is_Some_b (pixel_lighting F32.powf_integral 199 173) = true /\
  render_pixel F32.powf_integral 199 173 = Some (mk_draw 199 173 77 77 77) /\
  additive_pixel F32.powf_integral 199 173 = Some (mk_draw 199 173 79 79 79) /\
  render_pixel F32.powf_integral 199 173
  <> additive_pixel F32.powf_integral 199 173.
Proof.
  split; [vm_compute; reflexivity|].
  split; [vm_compute; reflexivity|].
  split; [vm_compute; reflexivity|].
  vm_compute. discriminate.
Qed.

(** The sum stays at 79 when the value [powf] returns for that pixel is
    moved by up to 64 units in the last place around the correctly rounded
    power. *)
Lemma specular_not_added_near (p : float) :
  let p0 := F32.powf_integral 1062546692 (#20)%f32 in
  p0 - 64 <= p <= p0 + 64 ->
  additive_pixel (fun _ _ => p) 199 173 = Some (mk_draw 199 173 79 79 79).
Proof.
  intros p0 Hp.
  assert (Hall : forallb
            (fun k => match additive_pixel (fun _ _ => p0 - 64 + Z.of_nat k)
                                           199 173 with
                      | Some d => (red d =? 79) && (green d =? 79)
                                  && (blue d =? 79) && (px d =? 199)
                                  && (py d =? 173)
                      | None => false
                      end) (seq 0 129) = true) by (vm_compute; reflexivity).
  rewrite forallb_forall in Hall.
  specialize (Hall (Z.to_nat (p - (p0 - 64)))).
  replace (p0 - 64 + Z.of_nat (Z.to_nat (p - (p0 - 64)))) with p in Hall
    by lia.
  destruct (additive_pixel (fun _ _ => p) 199 173) as [[a b r g bl]|].
  - cbn [red green blue px py] in Hall.
    assert (Hin : In (Z.to_nat (p - (p0 - 64))) (seq 0 129))
      by (apply in_seq; lia).
    apply Hall in Hin.
    rewrite !andb_true_iff, !Z.eqb_eq in Hin.
    destruct Hin as ((((-> & ->) & ->) & ->) & ->). reflexivity.
  - assert (Hin : In (Z.to_nat (p - (p0 - 64))) (seq 0 129))
      by (apply in_seq; lia).
    apply Hall in Hin. discriminate.
Qed.

End RenderProperties.

(** * More on the hash *)

Section HashMore.
Import Hash HashInverse.

Lemma unxorshift_uint32 (k w : Z) :
  0 <= k -> is_uint32 w -> is_uint32 (unxorshift k w).
Proof.
  intros Hk Hw. unfold unxorshift.
  repeat apply lxor_uint32; try apply shiftr_uint32; auto; lia.
Qed.

Lemma shiftr_uint32_0 (w n : Z) : 32 <= n -> is_uint32 w -> Z.shiftr w n = 0.
Proof.
  unfold is_uint32. intros Hn Hw. rewrite Z.shiftr_div_pow2 by lia.
  apply Z.div_small. split; [lia|].
  apply Z.lt_le_trans with (2 ^ 32); [lia|].
  apply Z.pow_le_mono_r; lia.
Qed.

(** [x ^= x >> k] after [unxorshift k] is the identity. *)
Lemma xorshift_unxorshift (k w : Z) :
  0 < k -> 32 <= 3 * k -> is_uint32 w ->
  Z.lxor (unxorshift k w) (Z.shiftr (unxorshift k w) k) = w.
Proof.
  intros Hk H3 Hw. unfold unxorshift.
  rewrite !Z.shiftr_lxor, !Z.shiftr_shiftr by lia.
  replace (k + k) with (2 * k) by lia.
  rewrite (shiftr_uint32_0 w (2 * k + k)) by (auto; lia).
  rewrite Z.lxor_0_r, Z.lxor_assoc, Z.lxor_nilpotent. apply Z.lxor_0_r.
Qed.

Lemma mul_inverse (c c' w : Z) :
  wrap32 (c' * c) = 1 -> is_uint32 w -> wrap32 (wrap32 (w * c') * c) = w.
Proof.
  unfold wrap32, is_uint32. intros Hc Hw.
  rewrite Z.mul_mod_idemp_l by lia.
  rewrite <- Z.mul_assoc, <- Z.mul_mod_idemp_r, Hc by lia.
  rewrite Z.mul_1_r. now apply Z.mod_small.
Qed.

Lemma int_hash32_inv_uint32 (w : Z) : is_uint32 w -> is_uint32 (int_hash32_inv w).
Proof.
  intros Hw. unfold int_hash32_inv. cbv zeta.
  apply unxorshift_uint32; [lia|]. apply wrap32_range.
Qed.

Lemma int_hash32_inv_r (w : Z) :
  is_uint32 w -> int_hash32 (int_hash32_inv w) = w.
Proof.
  intros Hw. unfold int_hash32_inv, int_hash32. cbv zeta.
  set (w1 := unxorshift 14 w).
  set (w2 := wrap32 (w1 * 0x32b21703)).
  set (w3 := unxorshift 15 w2).
  set (w4 := wrap32 (w3 * 0x469e0db1)).
  set (w5 := unxorshift 11 w4).
  set (w6 := wrap32 (w5 * 0x79a85073)).
  assert (H1 : is_uint32 w1) by (apply unxorshift_uint32; [lia|assumption]).
  assert (H2 : is_uint32 w2) by apply wrap32_range.
  assert (H3 : is_uint32 w3) by (apply unxorshift_uint32; [lia|assumption]).
  assert (H4 : is_uint32 w4) by apply wrap32_range.
  assert (H5 : is_uint32 w5) by (apply unxorshift_uint32; [lia|assumption]).
  assert (H6 : is_uint32 w6) by apply wrap32_range.
  rewrite (xorshift_unxorshift 17 w6) by (auto; lia).
  unfold w6. rewrite mul_inverse by (auto; reflexivity).
  unfold w5. rewrite (xorshift_unxorshift 11 w4) by (auto; lia).
  unfold w4. rewrite mul_inverse by (auto; reflexivity).
  unfold w3. rewrite (xorshift_unxorshift 15 w2) by (auto; lia).
  unfold w2. rewrite mul_inverse by (auto; reflexivity).
  unfold w1. apply xorshift_unxorshift; auto; lia.
Qed.

End HashMore.

Section HashMoreProperties.
Import Hash HashInverse.

(** X7: [int_hash32] is a permutation of the 32-bit words: it maps words to
    words and [int_hash32_inv] undoes it on both sides, so no two words have
    the same image and every word is an image. *)
Theorem int_hash32_bijective (w : Z) :
  is_uint32 w ->
  is_uint32 (int_hash32 w) /\ is_uint32 (int_hash32_inv w) /\
  int_hash32_inv (int_hash32 w) = w /\
  int_hash32 (int_hash32_inv w) = w.
Proof.
  intros Hw.
  split; [apply int_hash32_uint32|].
  split; [now apply int_hash32_inv_uint32|].
  split; [|now apply int_hash32_inv_r].
  apply int_hash32_inj.
  - apply int_hash32_inv_uint32, int_hash32_uint32.
  - assumption.
  - apply int_hash32_inv_r, int_hash32_uint32.
Qed.

Lemma int_hash32_bijective_witness :
  is_uint32 (int_hash32 0x3f800000) /\ is_uint32 (int_hash32_inv 0x3f800000) /\
  int_hash32_inv (int_hash32 0x3f800000) = 0x3f800000 /\
  int_hash32 (int_hash32_inv 0x3f800000) = 0x3f800000.
Proof.
  apply (int_hash32_bijective 0x3f800000). unfold is_uint32. lia.
Defined.

(** X8: two vertices that differ in exactly one component, by any amount,
    never have the same 32-bit hash. *)
Theorem hash_injective_in_each_component (a a' b b' c c' : Z) :
  is_uint32 a -> is_uint32 a' -> is_uint32 b -> is_uint32 b' ->
  is_uint32 c -> is_uint32 c' ->
  (hash a b c = hash a' b c -> a = a') /\
  (hash a b c = hash a b' c -> b = b') /\
  (hash a b c = hash a b c' -> c = c').
Proof.
  intros Ha Ha' Hb Hb' Hc Hc'.
  split; [now apply hash_inj_x|].
  split; [now apply hash_inj_y|now apply hash_inj_z].
Qed.

Lemma hash_injective_in_each_component_witness :
  (hash 0 0 0 = hash 0x3f800000 0 0 -> 0 = 0x3f800000) /\
  (hash 0 0 0 = hash 0 0x3f800000 0 -> 0 = 0x3f800000) /\
  (hash 0 0 0 = hash 0 0 0x3f800000 -> 0 = 0x3f800000).
Proof.
  apply (hash_injective_in_each_component 0 0x3f800000 0 0x3f800000
           0 0x3f800000); unfold is_uint32; lia.
Defined.

(** X9: the hash is not one-to-one on vertices: whatever the first
    component is changed to, there is a second component that gives the
    hash of the original vertex, so vertices with different bits can have
    the same hash. *)
Theorem hash_collision (a a' b c : Z) :
  is_uint32 a -> is_uint32 a' -> is_uint32 b -> a' <> a ->
  let b' := Z.lxor (Z.lxor (int_hash32 a') (int_hash32 a)) b in
  is_uint32 b' /\ b' <> b /\ hash a' b' c = hash a b c.
Proof.
  intros Ha Ha' Hb Hne b'.
  split; [|split].
  - unfold b'. apply lxor_uint32; [|assumption].
    apply lxor_uint32; apply int_hash32_uint32.
  - unfold b'. intros E.
    assert (E0 : Z.lxor (int_hash32 a') (int_hash32 a) = 0).
    { apply (lxor_cancel_r _ _ b). rewrite Z.lxor_0_l. exact E. }
    apply Z.lxor_eq in E0. apply Hne. apply int_hash32_inj; assumption.
  - rewrite !hash_unfold. do 2 f_equal. unfold b'.
    rewrite <- !Z.lxor_assoc, Z.lxor_nilpotent, Z.lxor_0_l. reflexivity.
Qed.

Lemma hash_collision_witness :
  let b' := Z.lxor (Z.lxor (int_hash32 0x3f800000) (int_hash32 0)) 0 in
  is_uint32 b' /\ b' <> 0 /\ hash 0x3f800000 b' 0 = hash 0 0 0.
Proof.
  apply (hash_collision 0 0x3f800000 0 0); unfold is_uint32; lia.
Defined.

End HashMoreProperties.

(** * More on the loader *)

Section LoaderMore.
Import Loader Dedup.

(** The two outcomes of one step. *)
Lemma dedup_vertex_cases (nb : Z) (st st' : state) (v : vec3_t) :
  dedup_vertex nb st v = Some st' ->
  (exists p, buckets st !! bucket_of nb v = Some (Some p) /\ st' = st) \/
  (buckets st !! bucket_of nb v = Some None /\
   buckets st' = <[bucket_of nb v := Some (new_node_index st)]> (buckets st) /\
   num_unique_vertices st' = S (num_unique_vertices st) /\
   unique_vertices st'
   = <[num_unique_vertices st := Some v]> (unique_vertices st) /\
   (num_unique_vertices st < length (unique_vertices st))%nat).
Proof.
  unfold dedup_vertex. destruct (nb =? 0); [discriminate|].
  replace (Z.to_nat (Hash.hash (x v) (y v) (z v) mod nb))
    with (bucket_of nb v) by reflexivity.
  destruct (buckets st !! bucket_of nb v) as [[q|]|]; try discriminate.
  - intros H; apply (inj Some) in H; subst st'. left. eauto.
  - destruct (decide _) as [[_ Hl]|]; [|discriminate].
    intros H; apply (inj Some) in H; subst st'. right.
    cbn [buckets num_unique_vertices unique_vertices]. auto.
Qed.

Lemma dedup_vertices_stored (nb : Z) (vs : list vec3_t) (st st' : state)
    (seen : list nat) :
  0 < nb < 2 ^ 32 -> inv nb st ->
  (forall i, i ∈ seen <-> exists p, buckets st !! i = Some (Some p)) ->
  dedup_vertices nb st vs = Some st' ->
  stored st' = stored st ++ (Some <$> first_per_bucket nb seen vs).
Proof.
  intros Hnb. revert st seen; induction vs as [|v vs IH]; intros st seen I Hs.
  - cbn [dedup_vertices first_per_bucket fmap list_fmap].
    intros H; apply (inj Some) in H; subst st'. now rewrite app_nil_r.
  - cbn [dedup_vertices first_per_bucket].
    destruct (dedup_vertex_inv nb st v Hnb I) as (st1 & E & I1). rewrite E.
    intros H.
    destruct (dedup_vertex_cases _ _ _ _ E) as [(p & Hb & ->)|(Hb & Eb & Ec & Eu & Hl)].
    + destruct (decide _) as [_|Hn]; [|exfalso; apply Hn, Hs; eauto].
      now apply IH.
    + destruct (decide _) as [Hin|_].
      { apply Hs in Hin as [p Hp]. congruence. }
      assert (Hs' : forall i, i ∈ bucket_of nb v :: seen <->
                exists p, buckets st1 !! i = Some (Some p)).
      { intros i. rewrite elem_of_cons, Hs, Eb. split.
        - intros [->|[p Hp]].
          + eexists. apply list_lookup_insert_eq.
            now apply lookup_lt_Some in Hb.
          + exists p. rewrite list_lookup_insert_ne; [assumption|].
            congruence.
        - intros [p Hp].
          destruct (decide (i = bucket_of nb v)) as [|Hne]; [now left|].
          right. exists p.
          now rewrite list_lookup_insert_ne in Hp by congruence. }
      rewrite (IH st1 _ I1 Hs' H).
      unfold stored at 1. rewrite Ec, Eu.
      rewrite (take_S_r _ _ (Some v)) by now apply list_lookup_insert_eq.
      rewrite take_insert_ge by lia.
      rewrite fmap_cons, <- app_assoc. reflexivity.
Qed.

Lemma stored_init (num_tris : Z) : stored (init num_tris) = [].
Proof. reflexivity. Qed.

Lemma buckets_init_empty (num_tris : Z) (i : nat) :
  i ∈ @nil nat <-> exists p, buckets (init num_tris) !! i = Some (Some p).
Proof.
  split; [intros H; now apply elem_of_nil in H|].
  intros [p Hp]. unfold init in Hp. cbn [buckets] in Hp.
  apply lookup_replicate in Hp as [Hp _]. discriminate.
Qed.

(** After any prefix of the stream the stored vertices are the first of
    each bucket. *)
Lemma state_after_stored (f : FILE) (k : nat) (sk : state) :
  state_after (triangle_count f) (vertices f) k = Some sk ->
  stored sk
  = Some <$> first_per_bucket (wrap32 (3 * triangle_count f)) []
               (take k (vertices f)).
Proof.
  unfold state_after. intros H.
  pose proof (triangle_count_range f) as Hr.
  destruct (Z.eq_dec (triangle_count f) 0) as [E0|Hn0].
  - revert H. unfold vertices. rewrite E0. change (Z.to_nat 0) with 0%nat.
    cbn [stream_vertices]. rewrite take_nil. cbn [dedup_vertices].
    intros H; apply (inj Some) in H; subst sk. reflexivity.
  - destruct (num_buckets_range (triangle_count f) Hr) as [Hnb _];
      [unfold is_uint32 in Hr; lia|].
    rewrite (dedup_vertices_stored _ _ _ _ [] Hnb (inv_init _)
               (buckets_init_empty _) H).
    now rewrite stored_init.
Qed.

(** Facts on [first_per_bucket]. *)
Lemma first_per_bucket_spec (nb : Z) (vs : list vec3_t) (seen : list nat) :
  let us := first_per_bucket nb seen vs in
  NoDup (bucket_of nb <$> us) /\
  (forall u, u ∈ us -> u ∈ vs /\ bucket_of nb u ∉ seen) /\
  (forall v, v ∈ vs -> bucket_of nb v ∉ seen ->
     exists u, u ∈ us /\ bucket_of nb u = bucket_of nb v).
Proof.
  revert seen; induction vs as [|v vs IH]; intros seen;
    cbn [first_per_bucket].
  - split; [constructor|]. split; intros u Hu; now apply elem_of_nil in Hu.
  - destruct (decide _) as [Hin|Hnin].
    + destruct (IH seen) as (Hd & Hsub & Hcov). cbv zeta.
      split; [assumption|]. split.
      * intros u Hu. destruct (Hsub u Hu). split; [now right|assumption].
      * intros w Hw Hws. apply elem_of_cons in Hw as [->|Hw];
          [contradiction|now apply Hcov].
    + destruct (IH (bucket_of nb v :: seen)) as (Hd & Hsub & Hcov). cbv zeta.
      split; [|split].
      * rewrite fmap_cons. apply NoDup_cons. split; [|assumption].
        intros Hin. apply list_elem_of_fmap in Hin as (u & Eu & Hu).
        destruct (Hsub u Hu) as [_ Hn]. apply Hn. rewrite Eu. now left.
      * intros u Hu. apply elem_of_cons in Hu as [->|Hu].
        -- split; [now left|assumption].
        -- destruct (Hsub u Hu) as [Hv Hn]. split; [now right|].
           intros Hs. apply Hn. now right.
      * intros w Hw Hws.
        destruct (decide (bucket_of nb w = bucket_of nb v)) as [E|Hne].
        -- exists v. split; [now left|now symmetry].
        -- apply elem_of_cons in Hw as [->|Hw]; [congruence|].
           destruct (Hcov w Hw) as (u & Hu & Eu).
           { intros Hs. apply elem_of_cons in Hs as [|]; contradiction. }
           exists u. split; [now right|assumption].
Qed.

(** Without collisions the first of each bucket is the first
    occurrence of each vertex. *)
Lemma first_per_bucket_first_seen (nb : Z) (vs seen : list vec3_t) :
  (forall u v, u ∈ seen ++ vs -> v ∈ seen ++ vs ->
     bucket_of nb u = bucket_of nb v -> u = v) ->
  first_per_bucket nb (bucket_of nb <$> seen) vs = first_seen seen vs.
Proof.
  revert seen; induction vs as [|v vs IH]; intros seen Hinj;
    cbn [first_per_bucket first_seen]; [reflexivity|].
  assert (Hiff : bucket_of nb v ∈ (bucket_of nb <$> seen) <-> v ∈ seen).
  { split.
    - intros Hin. apply list_elem_of_fmap in Hin as (u & Eu & Hu).
      replace v with u; [assumption|].
      apply Hinj; [apply elem_of_app; now left| |now symmetry].
      apply elem_of_app. right. now left.
    - intros Hin. apply list_elem_of_fmap. eauto. }
  destruct (decide (bucket_of nb v ∈ _)) as [Hb|Hb];
    destruct (decide (v ∈ seen)) as [Hv|Hv]; try tauto.
  - apply IH. intros u w Hu Hw. apply Hinj.
    + apply elem_of_app in Hu as [|]; apply elem_of_app;
        [now left|right; now right].
    + apply elem_of_app in Hw as [|]; apply elem_of_app;
        [now left|right; now right].
  - f_equal. rewrite <- fmap_cons. apply IH.
    intros u w Hu Hw. apply Hinj.
    + apply elem_of_app in Hu as [Hu|Hu]; apply elem_of_app.
      * apply elem_of_cons in Hu as [->|]; [right; now left|now left].
      * right; now right.
    + apply elem_of_app in Hw as [Hw|Hw]; apply elem_of_app.
      * apply elem_of_cons in Hw as [->|]; [right; now left|now left].
      * right; now right.
Qed.

(** [first_seen] removes the repetitions and nothing else. *)
Lemma first_seen_spec (vs seen : list vec3_t) :
  NoDup (first_seen seen vs) /\
  (forall v, v ∈ first_seen seen vs <-> v ∈ vs /\ v ∉ seen).
Proof.
  revert seen; induction vs as [|v vs IH]; intros seen; cbn [first_seen].
  - split; [constructor|]. intros v. rewrite elem_of_nil. tauto.
  - destruct (decide (v ∈ seen)) as [Hv|Hv].
    + destruct (IH seen) as [Hd Hm]. split; [assumption|].
      intros w. rewrite Hm, elem_of_cons. split; [tauto|].
      intros [[->|Hw] Hn]; [contradiction|tauto].
    + destruct (IH (v :: seen)) as [Hd Hm]. split.
      * apply NoDup_cons. split; [|assumption].
        rewrite Hm. intros [_ Hn]. apply Hn. now left.
      * intros w. rewrite elem_of_cons, Hm. unfold not.
        rewrite !elem_of_cons.
        destruct (decide (w = v)) as [->|Hne]; tauto.
Qed.

(** *** Short files *)

Lemma read_triangle_short (f : FILE) :
  (length (data f) < 50)%nat ->
  read_triangle f
  = Exit 1 (if (length (data f) <? 12)%nat then "Failed to read normal"
            else if (length (data f) <? 48)%nat then "Failed to read vertices"
            else "Failed to read attribute byte count")%string.
Proof.
  intros Hl. unfold read_triangle, fread.
  destruct (Nat.ltb_spec (length (data f)) 12) as [H12|H12].
  { destruct (decide _) as [|_]; [lia|]. reflexivity. }
  destruct (decide _) as [_|]; [|lia]. cbn [or_exit bind snd data seekable].
  rewrite length_drop.
  destruct (Nat.ltb_spec (length (data f)) 48) as [H48|H48].
  { destruct (decide _) as [|_]; [lia|]. reflexivity. }
  destruct (decide _) as [_|]; [|lia].
  cbn [or_exit bind snd fst data seekable]. rewrite !length_drop.
  destruct (decide _) as [|_]; [lia|]. reflexivity.
Qed.

Lemma parse_triangles_short (nb : Z) (n : nat) (f : FILE) (st : state)
    (k r : nat) :
  0 < nb < 2 ^ 32 -> inv nb st ->
  length (data f) = (50 * k + r)%nat -> (r < 50)%nat -> (k < n)%nat ->
  parse_triangles n nb f st
  = Exit 1 (if (r <? 12)%nat then "Failed to read normal"
            else if (r <? 48)%nat then "Failed to read vertices"
            else "Failed to read attribute byte count")%string.
Proof.
  intros Hnb. revert f st k; induction n as [|n IH]; intros f st k I Hl Hr Hk;
    [lia|].
  cbn [parse_triangles]. destruct k as [|k].
  - rewrite read_triangle_short by lia.
    replace (length (data f)) with r by lia. reflexivity.
  - destruct (read_triangle_ok f ltac:(lia)) as (r0 & -> & Hr0). cbn [bind].
    destruct (dedup_vertices_inv nb (fst r0) st Hnb I) as (st1 & -> & I1).
    cbn [or_undefined bind]. apply (IH _ _ k); [assumption|lia..].
Qed.

Lemma load_outcome (f : FILE) :
  match read_failure f with
  | Some message => load f = Exit 1 message
  | None => exists st, load f = Ok st
  end.
Proof.
  unfold read_failure.
  destruct (seekable f) eqn:Es; cbn [negb].
  2:{ unfold load, fseek_cur. now rewrite Es. }
  destruct (Nat.ltb_spec (length (data f)) 84) as [H84|H84].
  { unfold load, fseek_cur. rewrite Es. cbn [or_exit bind].
    unfold fread. cbn [data seekable]. rewrite length_drop.
    destruct (decide _) as [|_]; [lia|]. reflexivity. }
  cbv zeta.
  pose proof (Nat.div_mod (length (data f) - 84) 50 ltac:(lia)) as Hd.
  pose proof (Nat.mod_upper_bound (length (data f) - 84) 50 ltac:(lia)) as Hm.
  destruct (Nat.leb_spec (Z.to_nat (triangle_count f))
              ((length (data f) - 84) / 50)) as [Hn|Hn].
  { apply load_complete; [assumption|lia]. }
  set (r := ((length (data f) - 84) mod 50)%nat) in *.
  assert (H : load f
              = Exit 1 (if (r <? 12)%nat then "Failed to read normal"
                        else if (r <? 48)%nat then "Failed to read vertices"
                        else "Failed to read attribute byte count")%string).
  { unfold load, fseek_cur. rewrite Es. cbn [or_exit bind].
    unfold fread at 1. cbn [data seekable]. rewrite length_drop.
    destruct (decide _) as [_|]; [|lia]. cbn [or_exit bind fst snd].
    fold (triangle_count f).
    pose proof (triangle_count_range f) as Hr.
    destruct (num_buckets_range (triangle_count f) Hr) as [Hnb _];
      [unfold is_uint32 in Hr; lia|].
    apply (parse_triangles_short _ _ _ _ ((length (data f) - 84) / 50));
      [assumption|apply inv_init| |assumption..].
    cbn [data]. rewrite !length_drop. lia. }
  destruct (r <? 12)%nat; [exact H|].
  destruct (r <? 48)%nat; exact H.
Qed.

(** *** Reading back a file written in the layout *)

Lemma byte_of_to_N (n : Z) :
  0 <= n < 256 -> Z.of_N (Byte.to_N (default x00 (Byte.of_N (Z.to_N n)))) = n.
Proof.
  intros Hn. destruct (Byte.of_N (Z.to_N n)) as [b|] eqn:E.
  - apply Byte.to_of_N in E. cbn. rewrite E. lia.
  - apply Byte.of_N_None_iff in E. lia.
Qed.

Lemma le_value_word_bytes (w : Z) :
  is_uint32 w -> le_value (Mesh.word_bytes w) = w.
Proof.
  unfold is_uint32, Mesh.word_bytes. intros Hw.
  cbn [map le_value].
  rewrite !byte_of_to_N by (apply Z.mod_pos_bound; lia).
  change (256 ^ 0) with 1. change (256 ^ 1) with 256.
  change (256 ^ 2) with 65536. change (256 ^ 3) with 16777216.
  change (2 ^ 32) with 4294967296 in Hw.
  rewrite Z.div_1_r.
  pose proof (Z.div_mod w 256 ltac:(lia)).
  pose proof (Z.div_mod (w / 256) 256 ltac:(lia)) as H1.
  pose proof (Z.div_mod (w / 256 / 256) 256 ltac:(lia)) as H2.
  rewrite Z.div_div in H1, H2 by lia. rewrite Z.div_div in H2 by lia.
  change (256 * 256) with 65536 in *. change (65536 * 256) with 16777216 in *.
  assert (w / 16777216 < 256) by (apply Z.div_lt_upper_bound; lia).
  assert (0 <= w / 16777216) by (apply Z.div_pos; lia).
  rewrite (Z.mod_small (w / 16777216) 256) by lia. lia.
Qed.

Lemma word_bytes_shape (w : Z) :
  exists b0 b1 b2 b3, Mesh.word_bytes w = [b0; b1; b2; b3].
Proof. unfold Mesh.word_bytes. cbn [map]. eauto. Qed.

Lemma vec3_at_corners (a b c : vec3_t) :
  Layout.is_words a -> Layout.is_words b -> Layout.is_words c ->
  vec3_at (Mesh.corners a b c) 0 = a /\
  vec3_at (Mesh.corners a b c) 1 = b /\
  vec3_at (Mesh.corners a b c) 2 = c.
Proof.
  intros (Ha1 & Ha2 & Ha3) (Hb1 & Hb2 & Hb3) (Hc1 & Hc2 & Hc3).
  apply le_value_word_bytes in Ha1, Ha2, Ha3, Hb1, Hb2, Hb3, Hc1, Hc2, Hc3.
  unfold vec3_at, Mesh.corners, Mesh.vec3_bytes.
  destruct (word_bytes_shape (x a)) as (q1a & q1b & q1c & q1d & E1).
  destruct (word_bytes_shape (y a)) as (q2a & q2b & q2c & q2d & E2).
  destruct (word_bytes_shape (z a)) as (q3a & q3b & q3c & q3d & E3).
  destruct (word_bytes_shape (x b)) as (q4a & q4b & q4c & q4d & E4).
  destruct (word_bytes_shape (y b)) as (q5a & q5b & q5c & q5d & E5).
  destruct (word_bytes_shape (z b)) as (q6a & q6b & q6c & q6d & E6).
  destruct (word_bytes_shape (x c)) as (q7a & q7b & q7c & q7d & E7).
  destruct (word_bytes_shape (y c)) as (q8a & q8b & q8c & q8d & E8).
  destruct (word_bytes_shape (z c)) as (q9a & q9b & q9c & q9d & E9).
  rewrite E1, E2, E3, E4, E5, E6, E7, E8, E9 in *.
  cbn [app drop take Nat.mul Nat.add].
  rewrite Ha1, Ha2, Ha3, Hb1, Hb2, Hb3, Hc1, Hc2, Hc3.
  destruct a, b, c. auto.
Qed.

Lemma fread_app (n : nat) (s : bool) (a b : list byte) :
  length a = n -> fread n (mk_file s (a ++ b)) = Some (a, mk_file s b).
Proof.
  intros Hl. unfold fread. cbn [data seekable]. rewrite length_app.
  destruct (decide _) as [_|]; [|lia].
  rewrite take_app_length', drop_app_length' by done. reflexivity.
Qed.

Lemma word_bytes_length (w : Z) : length (Mesh.word_bytes w) = 4%nat.
Proof. reflexivity. Qed.

Lemma corners_length (a b c : vec3_t) : length (Mesh.corners a b c) = 36%nat.
Proof.
  unfold Mesh.corners, Mesh.vec3_bytes.
  rewrite !length_app, !word_bytes_length. reflexivity.
Qed.

Lemma read_triangle_record (s : bool) (r : Layout.record_t)
    (rest : list byte) :
  Layout.record_ok r ->
  read_triangle (mk_file s (Layout.record_bytes r ++ rest))
  = Ok ([(Layout.corner_vertices r).1.1; (Layout.corner_vertices r).1.2;
         (Layout.corner_vertices r).2], mk_file s rest).
Proof.
  destruct r as [nb [[a b] c] ab]. intros (Hn & (Ha & Hb & Hc) & Hab).
  cbn [Layout.normal_bytes Layout.corner_vertices Layout.attribute_bytes
       fst snd] in *.
  unfold read_triangle, Layout.record_bytes.
  cbn [Layout.normal_bytes Layout.corner_vertices Layout.attribute_bytes].
  rewrite <- !app_assoc.
  rewrite fread_app by assumption. cbn [or_exit bind fst snd].
  rewrite fread_app by apply corners_length. cbn [or_exit bind fst snd].
  rewrite fread_app by assumption. cbn [or_exit bind fst snd].
  destruct (vec3_at_corners a b c Ha Hb Hc) as (-> & -> & ->). reflexivity.
Qed.

Lemma stream_vertices_records (s : bool) (rs : list Layout.record_t)
    (rest : list byte) :
  Forall Layout.record_ok rs ->
  stream_vertices (length rs)
    (mk_file s (concat (map Layout.record_bytes rs) ++ rest))
  = Layout.corners_of (map Layout.corner_vertices rs).
Proof.
  induction 1 as [|r rs Hr _ IH]; [reflexivity|].
  cbn [length map concat stream_vertices]. rewrite <- app_assoc.
  rewrite (read_triangle_record s r _ Hr). cbn [fst snd].
  rewrite IH. reflexivity.
Qed.

Lemma records_length (rs : list Layout.record_t) :
  Forall Layout.record_ok rs ->
  length (concat (map Layout.record_bytes rs)) = (50 * length rs)%nat.
Proof.
  induction 1 as [|r rs Hr _ IH]; [reflexivity|].
  cbn [map concat length]. rewrite length_app, IH.
  destruct r as [nb [[a b] c] ab]. destruct Hr as (Hn & _ & Hab).
  cbn [Layout.normal_bytes Layout.attribute_bytes] in Hn, Hab.
  unfold Layout.record_bytes.
  cbn [Layout.normal_bytes Layout.corner_vertices Layout.attribute_bytes].
  rewrite !length_app, corners_length, Hn, Hab. lia.
Qed.

(** *** The loader when an allocation can fail *)

Lemma alloc_dedup_vertex_succeed (m : Alloc.mallocs) (nb : Z) (st : state)
    (v : vec3_t) :
  Alloc.succeed m -> Alloc.dedup_vertex m nb st v = dedup_vertex nb st v.
Proof.
  intros (Hu & Hp & Hb). unfold Alloc.dedup_vertex. rewrite Hu, Hp, Hb.
  cbn [negb]. cbv zeta. unfold dedup_vertex. cbv zeta.
  destruct (nb =? 0); [reflexivity|].
  destruct (buckets st !! Z.to_nat (Hash.hash (x v) (y v) (z v) mod nb))
    as [[p|]|]; reflexivity.
Qed.

Lemma alloc_dedup_vertices_succeed (m : Alloc.mallocs) (nb : Z)
    (vs : list vec3_t) (st : state) :
  Alloc.succeed m -> Alloc.dedup_vertices m nb st vs = dedup_vertices nb st vs.
Proof.
  intros Hm. revert st; induction vs as [|v vs IH]; intros st; [reflexivity|].
  cbn [Alloc.dedup_vertices dedup_vertices].
  rewrite (alloc_dedup_vertex_succeed m nb st v Hm).
  destruct (dedup_vertex nb st v) as [st'|]; [apply IH|reflexivity].
Qed.

Lemma alloc_parse_triangles_succeed (m : Alloc.mallocs) (nb : Z) (n : nat)
    (f : FILE) (st : state) :
  Alloc.succeed m ->
  Alloc.parse_triangles m n nb f st = parse_triangles n nb f st.
Proof.
  intros Hm. revert f st; induction n as [|n IH]; intros f st; [reflexivity|].
  cbn [Alloc.parse_triangles parse_triangles].
  destruct (read_triangle f) as [r| |]; cbn [bind]; try reflexivity.
  rewrite (alloc_dedup_vertices_succeed m nb (fst r) st Hm).
  destruct (dedup_vertices nb st (fst r)) as [st'|]; cbn [or_undefined bind];
    [apply IH|reflexivity].
Qed.

Lemma alloc_init_buckets (m : Alloc.mallocs) (num_tris : Z) :
  Alloc.buckets_ok m = true -> Alloc.init m num_tris = Some (init num_tris).
Proof.
  intros Hb. unfold Alloc.init. rewrite Hb. cbn [negb].
  now rewrite andb_false_r.
Qed.

Lemma alloc_load_succeed (m : Alloc.mallocs) (f : FILE) :
  Alloc.succeed m -> Alloc.load m f = load f.
Proof.
  intros Hm. unfold Alloc.load, load.
  destruct (fseek_cur f 80) as [f1|]; [|reflexivity]. cbn [or_exit bind].
  destruct (fread 4 f1) as [r|]; [|reflexivity]. cbn [or_exit bind].
  rewrite alloc_init_buckets by apply Hm. cbn [or_undefined bind].
  now apply alloc_parse_triangles_succeed.
Qed.

(** The two loaders behind the header and the count. *)
Lemma load_body (f : FILE) :
  seekable f = true -> (84 <= length (data f))%nat ->
  load f
  = parse_triangles (Z.to_nat (triangle_count f))
      (wrap32 (3 * triangle_count f))
      (mk_file true (drop 4 (drop 80 (data f)))) (init (triangle_count f)).
Proof.
  intros Hs Hl. unfold load, fseek_cur. rewrite Hs. cbn [or_exit bind].
  unfold fread at 1. cbn [data seekable]. rewrite length_drop.
  destruct (decide _) as [_|]; [|lia]. cbn [or_exit bind fst snd].
  reflexivity.
Qed.

Lemma alloc_load_body (m : Alloc.mallocs) (f : FILE) :
  seekable f = true -> (84 <= length (data f))%nat ->
  Alloc.load m f
  = bind (or_undefined (Alloc.init m (triangle_count f)))
      (Alloc.parse_triangles m (Z.to_nat (triangle_count f))
         (wrap32 (3 * triangle_count f))
         (mk_file true (drop 4 (drop 80 (data f))))).
Proof.
  intros Hs Hl. unfold Alloc.load, fseek_cur. rewrite Hs. cbn [or_exit bind].
  unfold fread at 1. cbn [data seekable]. rewrite length_drop.
  destruct (decide _) as [_|]; [|lia]. cbn [or_exit bind fst snd].
  reflexivity.
Qed.

(** The first vertex of a parse is pushed: with a null node arena or a null
    vertex array the step is undefined. *)
Lemma alloc_dedup_vertex_null (m : Alloc.mallocs) (num_tris : Z) (v : vec3_t) :
  0 < wrap32 (3 * num_tris) ->
  Alloc.preallocated_nodes_ok m && Alloc.unique_vertices_ok m = false ->
  Alloc.dedup_vertex m (wrap32 (3 * num_tris)) (init num_tris) v = None.
Proof.
  intros Hnb Hm. unfold Alloc.dedup_vertex. cbv zeta.
  destruct (Z.eqb_spec (wrap32 (3 * num_tris)) 0) as [E|_]; [lia|].
  destruct (Alloc.buckets_ok m); cbn [negb]; [|reflexivity].
  set (i := Z.to_nat (Hash.hash (x v) (y v) (z v) mod wrap32 (3 * num_tris))).
  assert (Hi : (i < Z.to_nat (wrap32 (3 * num_tris)))%nat).
  { pose proof (Z.mod_pos_bound (Hash.hash (x v) (y v) (z v))
                  (wrap32 (3 * num_tris)) Hnb) as Hb.
    unfold i. clearbody i. lia. }
  clearbody i. unfold init. cbn [buckets].
  rewrite (lookup_replicate_2 _ _ _ Hi).
  destruct (Alloc.preallocated_nodes_ok m); cbn [negb andb] in *;
    [|reflexivity].
  rewrite Hm. reflexivity.
Qed.

(** What a run does when an allocation has failed: it is undefined when it
    goes through the null pointer, and it is the run of the loader whose
    allocations succeed otherwise. *)
Lemma alloc_load_cases (m : Alloc.mallocs) (f : FILE) :
  if Alloc.null_access m f then Alloc.load m f = Undefined
  else Alloc.load m f = load f.
Proof.
  unfold Alloc.null_access.
  destruct (seekable f) eqn:Es; cbn [andb].
  2:{ unfold Alloc.load, load, fseek_cur. now rewrite Es. }
  destruct (Nat.leb_spec 84 (length (data f))) as [H84|H84]; cbn [andb].
  2:{ unfold Alloc.load, load, fseek_cur. rewrite Es. cbn [or_exit bind].
      unfold fread. cbn [data seekable]. rewrite length_drop.
      destruct (decide _) as [|_]; [lia|]. reflexivity. }
  rewrite (alloc_load_body m f Es H84), (load_body f Es H84).
  pose proof (triangle_count_range f) as Hr.
  destruct (Z.ltb_spec 0 (triangle_count f)) as [Hn|Hn]; cbn [andb].
  2:{ assert (E0 : triangle_count f = 0) by (unfold is_uint32 in Hr; lia).
      rewrite E0. unfold Alloc.init. change (wrap32 (3 * 0)) with 0.
      reflexivity. }
  destruct (num_buckets_range (triangle_count f) Hr Hn) as [Hnb _].
  destruct (Alloc.buckets_ok m) eqn:Eb; cbn [negb orb].
  2:{ unfold Alloc.init. rewrite Eb.
      destruct (Z.ltb_spec 0 (wrap32 (3 * triangle_count f))) as [_|]; [|lia].
      reflexivity. }
  rewrite (alloc_init_buckets m _ Eb). cbn [or_undefined bind].
  destruct (Z.to_nat (triangle_count f)) as [|n] eqn:En; [lia|].
  cbn [Alloc.parse_triangles parse_triangles].
  destruct (Nat.leb_spec 134 (length (data f))) as [H134|H134]; cbn [andb].
  2:{ rewrite read_triangle_short
        by (cbn [data]; rewrite !length_drop; lia).
      reflexivity. }
  destruct (Alloc.preallocated_nodes_ok m && Alloc.unique_vertices_ok m)
    eqn:Em; cbn [negb].
  - apply andb_prop in Em as [Ep Eu].
    assert (Hm : Alloc.succeed m) by (unfold Alloc.succeed; auto).
    destruct (read_triangle _) as [r| |]; cbn [bind]; try reflexivity.
    rewrite (alloc_dedup_vertices_succeed m _ (fst r) _ Hm).
    destruct (dedup_vertices _ _ (fst r)) as [st'|]; cbn [or_undefined bind];
      [|reflexivity].
    now apply alloc_parse_triangles_succeed.
  - destruct (read_triangle_ok (mk_file true (drop 4 (drop 80 (data f)))))
      as (r & Er & _); [cbn [data]; rewrite !length_drop; lia|].
    rewrite Er. cbn [bind].
    pose proof (read_triangle_length _ _ Er) as Hl.
    destruct (fst r) as [|v vs]; [discriminate|].
    cbn [Alloc.dedup_vertices].
    rewrite (alloc_dedup_vertex_null m _ v (proj1 Hnb) Em). reflexivity.
Qed.

Lemma alloc_load_outcome (m : Alloc.mallocs) (f : FILE) :
  if Alloc.null_access m f then Alloc.load m f = Undefined
  else match read_failure f with
       | Some message => Alloc.load m f = Exit 1 message
       | None => exists st, Alloc.load m f = Ok st
       end.
Proof.
  pose proof (alloc_load_cases m f) as H.
  destruct (Alloc.null_access m f); [exact H|].
  rewrite H. apply load_outcome.
Qed.

End LoaderMore.

Section LoaderMoreProperties.
Import Loader Dedup.

(** X1: the outcome of the loader is decided by the results of the three
    allocations, the triangle count and the length of the file.  A run that
    goes through a null pointer is undefined: that is the case when the
    count is read and is not zero and either [buckets] is [NULL] or one of
    the other two arrays is and the first record is there in full.
    Otherwise: on a stream that cannot seek it prints "Failed to seek"; with
    fewer than 84 bytes, "Failed to read number of triangles"; when fewer
    complete 50-byte records follow than the count announces, the message
    of the first read that meets the end of the file (normal below 12
    remaining bytes, vertices below 48, attribute byte count otherwise); in
    each of these cases the status is 1.  Otherwise the parse completes. *)
Theorem load_outcome_by_length (m : Alloc.mallocs) (f : FILE) :
  if Alloc.null_access m f then Alloc.load m f = Undefined
  else match read_failure f with
       | Some message => Alloc.load m f = Exit 1 message
       | None => exists st, Alloc.load m f = Ok st
       end.
Proof. apply alloc_load_outcome. Qed.

(** X2: when the three allocations succeed, the loader stays within the
    defined behaviour of C on every file: it is then the loader of
    [Loader], and no step of the parse divides by zero or indexes outside
    the buckets, the node arena or the unique vertices, whatever the
    triangle count and the vertices are. *)
Theorem load_never_undefined (m : Alloc.mallocs) (f : FILE) (k : nat) :
  Alloc.succeed m ->
  Alloc.load m f <> Undefined /\
  Alloc.load m f = load f /\
  is_Some (Alloc.state_after m (triangle_count f) (vertices f) k).
Proof.
  intros Hm. rewrite (alloc_load_succeed m f Hm).
  split; [apply load_defined|]. split; [reflexivity|].
  unfold Alloc.state_after.
  rewrite alloc_init_buckets by apply Hm.
  rewrite (alloc_dedup_vertices_succeed m _ _ _ Hm).
  destruct (state_after_inv f k) as (sk & E & _).
  unfold state_after in E. rewrite E. eauto.
Qed.

Lemma load_never_undefined_witness :
  Alloc.load (Alloc.mk_mallocs true true true) Mesh.shared_edge <> Undefined /\
  Alloc.load (Alloc.mk_mallocs true true true) Mesh.shared_edge
  = load Mesh.shared_edge /\
  is_Some (Alloc.state_after (Alloc.mk_mallocs true true true)
             (triangle_count Mesh.shared_edge) (vertices Mesh.shared_edge) 4).
Proof.
  apply (load_never_undefined (Alloc.mk_mallocs true true true)
           Mesh.shared_edge 4).
  unfold Alloc.succeed. cbn. auto.
Defined.

(** A failed allocation of the buckets: a file of 84 bytes that announces
    1073741824 triangles makes the clearing loop write through [NULL]. *)
Example null_buckets_undefined :
  Alloc.load (Alloc.mk_mallocs true true false)
    (mk_file true (replicate 80 x00 ++ Mesh.word_bytes 0x40000000))
  = Undefined.
Proof. vm_compute. reflexivity. Qed.

(** X3: after any number of vertices of the stream, and at the end of a
    completed parse, the unique vertices are, in order, the vertices that
    were the first of the stream to fall into their bucket: a vertex is
    appended exactly when no earlier vertex has its bucket. *)
Theorem unique_vertices_first_per_bucket (f : FILE) (k : nat) :
  let num_buckets := wrap32 (3 * triangle_count f) in
  exists sk,
    state_after (triangle_count f) (vertices f) k = Some sk /\
    stored sk
    = Some <$> first_per_bucket num_buckets [] (take k (vertices f)) /\
    forall st, load f = Ok st ->
      stored st = Some <$> first_per_bucket num_buckets [] (vertices f).
Proof.
  intros nb. destruct (state_after_inv f k) as (sk & Hk & _).
  exists sk. split; [assumption|]. split.
  - now apply state_after_stored.
  - intros st Hl. apply load_ok in Hl as [_ Hl].
    rewrite (state_after_stored _ _ _ Hl). now rewrite firstn_all.
Qed.

Lemma unique_vertices_first_per_bucket_witness :
  exists sk st,
    state_after 1 (vertices Mesh.colliding_triangle) 2 = Some sk /\
    stored sk = [Some (mk_vec3 0 0 0); Some (mk_vec3 0 Mesh.f1 0)] /\
    load Mesh.colliding_triangle = Ok st /\
    stored st = [Some (mk_vec3 0 0 0); Some (mk_vec3 0 Mesh.f1 0)].
Proof.
  destruct (unique_vertices_first_per_bucket Mesh.colliding_triangle 2)
    as (sk & Hk & Hs & Hl).
  assert (Hload : exists st, load Mesh.colliding_triangle = Ok st)
    by (eexists; vm_compute; reflexivity).
  destruct Hload as [st Hst]. exists sk, st.
  split; [exact Hk|]. split; [exact Hs|]. split; [exact Hst|].
  exact (Hl st Hst).
Defined.

(** X4: at the end of a completed parse no vertex is stored twice, every
    stored vertex is a vertex of the file, no two stored vertices share a
    bucket, every vertex of the file has its bucket taken by a stored
    vertex, and the count is at most the number of buckets, which is
    [3 * num_tris] reduced modulo 2^32. *)
Theorem unique_vertices_distinct (f : FILE) (st : state) :
  load f = Ok st ->
  let num_buckets := wrap32 (3 * triangle_count f) in
  exists us,
    stored st = Some <$> us /\
    length us = num_unique_vertices st /\
    NoDup us /\
    NoDup (bucket_of num_buckets <$> us) /\
    (forall u, u ∈ us -> u ∈ vertices f) /\
    (forall v, v ∈ vertices f ->
       exists u, u ∈ us /\ bucket_of num_buckets u = bucket_of num_buckets v) /\
    Z.of_nat (num_unique_vertices st) <= num_buckets.
Proof.
  intros Hl nb. apply load_ok in Hl as [_ Hl].
  pose proof (state_after_stored _ _ _ Hl) as Hs. rewrite firstn_all in Hs.
  fold nb in Hs.
  destruct (first_per_bucket_spec nb (vertices f) []) as (Hd & Hsub & Hcov).
  destruct (state_after_inv f (length (vertices f))) as (s' & S' & I').
  rewrite Hl in S'. apply (inj Some) in S'. subst s'. fold nb in I'.
  assert (Hcount : (num_unique_vertices st <= Z.to_nat nb)%nat).
  { pose proof (occupied_le (buckets st)) as Ho.
    now rewrite <- (inv_count _ _ I'), (inv_buckets _ _ I') in Ho. }
  pose proof (wrap32_range (3 * triangle_count f)) as Hw. fold nb in Hw.
  exists (first_per_bucket nb [] (vertices f)).
  split; [assumption|]. split.
  { apply (f_equal length) in Hs. rewrite length_fmap in Hs. rewrite <- Hs.
    unfold stored. rewrite length_take, (inv_vertices _ _ I'). lia. }
  split; [eapply NoDup_fmap_1; eassumption|].
  split; [assumption|]. split; [intros u Hu; now apply Hsub|].
  split; [|unfold is_uint32 in Hw; lia].
  intros v Hv. apply Hcov; [assumption|]. apply not_elem_of_nil.
Qed.

Lemma unique_vertices_distinct_witness :
  exists st us,
    load Mesh.shared_edge = Ok st /\
    stored st = Some <$> us /\ length us = num_unique_vertices st /\
    NoDup us /\ NoDup (bucket_of 6 <$> us) /\
    (forall u, u ∈ us -> u ∈ vertices Mesh.shared_edge) /\
    (forall v, v ∈ vertices Mesh.shared_edge ->
       exists u, u ∈ us /\ bucket_of 6 u = bucket_of 6 v) /\
    Z.of_nat (num_unique_vertices st) <= 6.
Proof.
  assert (Hload : exists st, load Mesh.shared_edge = Ok st)
    by (eexists; vm_compute; reflexivity).
  destruct Hload as [st Hst].
  destruct (unique_vertices_distinct Mesh.shared_edge st Hst) as (us & H).
  exists st, us. split; [exact Hst|exact H].
Defined.

(** X5: when no two different vertices of the file fall into the same
    bucket, a completed parse stores exactly the first occurrence of every
    vertex of the file, in file order: each vertex once, none missing. *)
Theorem collision_free_dedup_exact (f : FILE) (st : state) :
  load f = Ok st ->
  (forall u v, u ∈ vertices f -> v ∈ vertices f ->
     bucket_of (wrap32 (3 * triangle_count f)) u
     = bucket_of (wrap32 (3 * triangle_count f)) v -> u = v) ->
  stored st = Some <$> first_seen [] (vertices f) /\
  NoDup (first_seen [] (vertices f)) /\
  (forall v, v ∈ first_seen [] (vertices f) <-> v ∈ vertices f).
Proof.
  intros Hl Hinj. apply load_ok in Hl as [_ Hl].
  pose proof (state_after_stored _ _ _ Hl) as Hs. rewrite firstn_all in Hs.
  assert (E : first_per_bucket (wrap32 (3 * triangle_count f)) []
                (vertices f) = first_seen [] (vertices f))
    by (apply (first_per_bucket_first_seen _ (vertices f) []); exact Hinj).
  rewrite Hs, E. split; [reflexivity|].
  destruct (first_seen_spec (vertices f) []) as [Hd Hm].
  split; [assumption|]. intros v. rewrite Hm.
  split; [tauto|]. intros Hv. split; [assumption|apply not_elem_of_nil].
Qed.

Lemma collision_free_dedup_exact_witness :
  exists st,
    load Mesh.shared_edge = Ok st /\
    stored st = Some <$> first_seen [] (vertices Mesh.shared_edge) /\
    NoDup (first_seen [] (vertices Mesh.shared_edge)) /\
    (forall v, v ∈ first_seen [] (vertices Mesh.shared_edge)
               <-> v ∈ vertices Mesh.shared_edge).
Proof.
  assert (Hload : exists st, load Mesh.shared_edge = Ok st)
    by (eexists; vm_compute; reflexivity).
  destruct Hload as [st Hst]. exists st. split; [exact Hst|].
  apply (collision_free_dedup_exact Mesh.shared_edge st Hst).
  assert (Hall : Forall (fun u => Forall (fun v =>
             bucket_of 6 u = bucket_of 6 v -> u = v)
             (vertices Mesh.shared_edge)) (vertices Mesh.shared_edge)).
  { apply (bool_decide_eq_true_1 _). vm_compute. reflexivity. }
  intros u v Hu Hv.
  rewrite Forall_forall in Hall. specialize (Hall u Hu).
  rewrite Forall_forall in Hall. exact (Hall v Hv).
Defined.

(** X6: a file written in the layout of the format (any 80 bytes of
    header, the triangle count as a little-endian 32-bit word, then per
    triangle any 12 bytes of normal, the nine little-endian floats of the
    three corners and any 2 bytes of attribute count, then any bytes after
    the last record) is read back as written: the count is the number of
    triangles, the vertex stream is the corners of the triangles in file
    order, and, when the three allocations succeed, the parse completes. *)
Theorem mesh_file_read_back (m : Alloc.mallocs) (header : list byte)
    (rs : list Layout.record_t) (rest : list byte) :
  length header = 80%nat ->
  Forall Layout.record_ok rs ->
  Z.of_nat (length rs) < 2 ^ 32 ->
  Alloc.succeed m ->
  triangle_count (Layout.file header rs rest) = Z.of_nat (length rs) /\
  vertices (Layout.file header rs rest)
  = Layout.corners_of (map Layout.corner_vertices rs) /\
  exists st, Alloc.load m (Layout.file header rs rest) = Ok st.
Proof.
  intros Hh Hrs Hn Hm.
  assert (Hc : triangle_count (Layout.file header rs rest)
               = Z.of_nat (length rs)).
  { unfold triangle_count, Layout.file. cbn [data].
    rewrite drop_app_length' by (symmetry; assumption).
    rewrite take_app_length' by reflexivity.
    apply le_value_word_bytes. unfold is_uint32. lia. }
  split; [assumption|]. split.
  - unfold vertices. rewrite Hc, Nat2Z.id. unfold body, Layout.file.
    cbn [data seekable]. rewrite app_assoc.
    rewrite drop_app_length'
      by (rewrite length_app, word_bytes_length; lia).
    now apply stream_vertices_records.
  - rewrite (alloc_load_succeed m _ Hm).
    apply load_complete; [reflexivity|]. rewrite Hc, Nat2Z.id.
    unfold Layout.file. cbn [data].
    rewrite !length_app, word_bytes_length, (records_length rs Hrs).
    lia.
Qed.

Lemma mesh_file_read_back_witness :
  triangle_count
    (Layout.file (replicate 80 x73) Layout.two_records [x01; x02; x03]) = 2 /\
  vertices (Layout.file (replicate 80 x73) Layout.two_records [x01; x02; x03])
  = [mk_vec3 0 0 0; mk_vec3 Mesh.f1 0 0; mk_vec3 0 Mesh.f1 0;
     mk_vec3 Mesh.f1 0 0; mk_vec3 Mesh.f1 Mesh.f1 0; mk_vec3 0 Mesh.f1 0] /\
  exists st,
    Alloc.load (Alloc.mk_mallocs true true true)
      (Layout.file (replicate 80 x73) Layout.two_records [x01; x02; x03])
    = Ok st.
Proof.
  apply (mesh_file_read_back (Alloc.mk_mallocs true true true)
           (replicate 80 x73) Layout.two_records [x01; x02; x03]).
  - reflexivity.
  - repeat constructor; vm_compute; intuition discriminate.
  - vm_compute. reflexivity.
  - unfold Alloc.succeed. cbn. auto.
Defined.

(** X16: a vertex that has been processed is skipped when it is met
    again: after any number of vertices of the stream, the step of the
    parse on one of those vertices returns the state unchanged. *)
Theorem processed_vertex_is_skipped (f : FILE) (k : nat) (v : vec3_t) :
  v ∈ take k (vertices f) ->
  exists sk,
    state_after (triangle_count f) (vertices f) k = Some sk /\
    dedup_vertex (wrap32 (3 * triangle_count f)) sk v = Some sk.
Proof.
  intros Hv. apply elem_of_take in Hv as (i & Hi & Hik).
  destruct (state_after_indexed f i v Hi) as (si & nd & Si & Di).
  destruct (state_after_inv f k) as (sk & Sk & Ik).
  exists sk. split; [assumption|].
  pose proof (state_after_head f (S i) k si sk _ nd ltac:(lia) Si Sk Di) as Hd.
  assert (Hb : exists p,
            buckets sk !! bucket_of (wrap32 (3 * triangle_count f)) v
            = Some (Some p)).
  { revert Hd. unfold head_node.
    destruct (buckets sk !! _) as [[p|]|]; try discriminate. eauto. }
  destruct Hb as [p Hp].
  pose proof (triangle_count_range f) as Hr.
  assert (Hpos : 0 < triangle_count f).
  { destruct (Z.eq_dec (triangle_count f) 0) as [E0|];
      [|unfold is_uint32 in Hr; lia].
    revert Hi. unfold vertices. rewrite E0. change (Z.to_nat 0) with 0%nat.
    cbn [stream_vertices]. rewrite lookup_nil. discriminate. }
  destruct (num_buckets_range (triangle_count f) Hr Hpos) as [Hnb _].
  unfold dedup_vertex.
  replace (Z.to_nat (Hash.hash (x v) (y v) (z v)
                     mod wrap32 (3 * triangle_count f)))
    with (bucket_of (wrap32 (3 * triangle_count f)) v) by reflexivity.
  destruct (Z.eqb_spec (wrap32 (3 * triangle_count f)) 0) as [E|_]; [lia|].
  rewrite Hp. reflexivity.
Qed.

Lemma processed_vertex_is_skipped_witness :
  exists sk,
    state_after 2 (vertices Mesh.shared_edge) 3 = Some sk /\
    dedup_vertex 6 sk (mk_vec3 Mesh.f1 0 0) = Some sk.
Proof.
  apply (processed_vertex_is_skipped Mesh.shared_edge 3 (mk_vec3 Mesh.f1 0 0)).
  apply elem_of_take. exists 1%nat. split; [reflexivity|lia].
Defined.

(** X17: the product [3 * num_tris] is formed in 32 bits, so from
    1431655766 announced triangles on the table has at least 2^32 fewer
    buckets than three times the count, and the number of unique vertices
    stays below that reduced number at every point of the parse. *)
Theorem large_count_wraps (f : FILE) (k : nat) :
  1431655766 <= triangle_count f ->
  exists sk,
    state_after (triangle_count f) (vertices f) k = Some sk /\
    length (buckets sk) = Z.to_nat (wrap32 (3 * triangle_count f)) /\
    wrap32 (3 * triangle_count f) <= 3 * triangle_count f - 2 ^ 32 /\
    Z.of_nat (num_unique_vertices sk) <= 3 * triangle_count f - 2 ^ 32.
Proof.
  intros Hn.
  pose proof (triangle_count_range f) as Hr.
  destruct (state_after_inv f k) as (sk & Sk & Ik).
  exists sk. split; [assumption|]. split; [apply Ik|].
  assert (Hw : wrap32 (3 * triangle_count f)
               <= 3 * triangle_count f - 2 ^ 32).
  { unfold wrap32, is_uint32 in *.
    pose proof (Z.div_mod (3 * triangle_count f) (2 ^ 32) ltac:(lia)) as Hd.
    assert (1 <= 3 * triangle_count f / 2 ^ 32)
      by (apply Z.div_le_lower_bound; lia).
    change (2 ^ 32) with 4294967296 in *. lia. }
  split; [assumption|].
  pose proof (occupied_le (buckets sk)) as Ho.
  rewrite <- (inv_count _ _ Ik), (inv_buckets _ _ Ik) in Ho.
  pose proof (wrap32_range (3 * triangle_count f)) as Hw'.
  unfold is_uint32 in Hw'. lia.
Qed.

Lemma large_count_wraps_witness :
  exists sk,
    state_after (triangle_count Large.file) (vertices Large.file) 4 = Some sk /\
    length (buckets sk) = Z.to_nat (wrap32 (3 * triangle_count Large.file)) /\
    wrap32 (3 * triangle_count Large.file)
    <= 3 * triangle_count Large.file - 2 ^ 32 /\
    Z.of_nat (num_unique_vertices sk)
    <= 3 * triangle_count Large.file - 2 ^ 32.
Proof.
  apply (large_count_wraps Large.file 4).
  replace (triangle_count Large.file) with 1431655766
    by (vm_compute; reflexivity).
  lia.
Defined.

(** X18: looking a stored vertex up gives back its index: at any point of
    the parse, for every index below the unique-vertex count, the cell
    holds a vertex, the bucket of that vertex points to the node of that
    index, and the key of the node is the vertex; the cells of the unique
    vertices and of the node arena from the count on were never written. *)
Theorem stored_vertex_lookup (f : FILE) (k i : nat) :
  let num_buckets := wrap32 (3 * triangle_count f) in
  exists sk,
    state_after (triangle_count f) (vertices f) k = Some sk /\
    length (unique_vertices sk) = Z.to_nat num_buckets /\
    length (preallocated_nodes sk) = Z.to_nat num_buckets /\
    ((i < num_unique_vertices sk)%nat ->
     exists u, unique_vertices sk !! i = Some (Some u) /\
       index_of num_buckets sk u = Some (Z.of_nat i) /\
       head_node sk (bucket_of num_buckets u)
       = Some {| key := u; value := Z.of_nat i; next := None |}) /\
    ((num_unique_vertices sk <= i < Z.to_nat num_buckets)%nat ->
     unique_vertices sk !! i = Some None /\
     preallocated_nodes sk !! i = Some None).
Proof.
  intros nb. destruct (state_after_inv f k) as (sk & Sk & Ik). fold nb in Ik.
  exists sk. split; [assumption|].
  split; [apply Ik|]. split; [apply Ik|]. split.
  - intros Hi. destruct (inv_node _ _ Ik i Hi) as (u & Hu & Hn & Hb).
    exists u. split; [assumption|].
    unfold index_of, head_node. rewrite Hb, Hn. auto.
  - intros [Hi Hi'].
    destruct (inv_fresh _ _ Ik i Hi Hi') as [Hn Hu]. auto.
Qed.

Lemma stored_vertex_lookup_witness :
  exists sk u,
    state_after 2 (vertices Mesh.shared_edge) 6 = Some sk /\
    unique_vertices sk !! 3%nat = Some (Some u) /\
    index_of 6 sk u = Some 3 /\
    unique_vertices sk !! 4%nat = Some None /\
    preallocated_nodes sk !! 4%nat = Some None.
Proof.
  destruct (stored_vertex_lookup Mesh.shared_edge 6 3)
    as (sk & Sk & _ & _ & Hlow & _).
  destruct (stored_vertex_lookup Mesh.shared_edge 6 4)
    as (sk' & Sk' & _ & _ & _ & Hhigh).
  assert (E : sk' = sk).
  { apply (inj Some). rewrite <- Sk'. exact Sk. }
  subst sk'.
  assert (Hc : num_unique_vertices sk = 4%nat).
  { assert (H : num_unique_vertices <$>
                  state_after 2 (vertices Mesh.shared_edge) 6 = Some 4%nat)
      by (vm_compute; reflexivity).
    change (triangle_count Mesh.shared_edge) with 2 in Sk.
    rewrite Sk in H. now injection H. }
  destruct Hlow as (u & Hu & Hidx & _); [lia|].
  destruct Hhigh as [Hv Hn]; [rewrite Hc; vm_compute; lia|].
  exists sk, u. auto 10.
Defined.

End LoaderMoreProperties.

(** * More on the vector arithmetic and the ray caster *)

Section FloatMore.
Import F32Class.

Lemma SFltb_irrefl (f : spec_float) : SFltb f f = false.
Proof.
  unfold SFltb, SFcompare.
  destruct f as [s|s| |s m e]; try destruct s; try reflexivity;
    rewrite Z.compare_refl, Pos.compare_cont_refl; reflexivity.
Qed.

Lemma SFmul_comm (f g : spec_float) :
  SFmul F32.prec F32.emax f g = SFmul F32.prec F32.emax g f.
Proof.
  destruct f as [s|s| |s m e], g as [s'|s'| |s' m' e']; cbn [SFmul];
    rewrite ?(xorb_comm s s'), ?(Pos.mul_comm m m'), ?(Z.add_comm e e');
    reflexivity.
Qed.

Lemma SFadd_comm (f g : spec_float) :
  SFadd F32.prec F32.emax f g = SFadd F32.prec F32.emax g f.
Proof.
  destruct f as [s|s| |s m e], g as [s'|s'| |s' m' e']; cbn [SFadd];
    try reflexivity; try (destruct s, s'; reflexivity).
  rewrite (Z.min_comm e e'). f_equal. apply Z.add_comm.
Qed.

Lemma mul_comm (a b : float) : F32.mul a b = F32.mul b a.
Proof. unfold F32.mul. now rewrite SFmul_comm. Qed.

Lemma add_comm (a b : float) : F32.add a b = F32.add b a.
Proof. unfold F32.add. now rewrite SFadd_comm. Qed.

(** Encoding a zero or a NaN and decoding it gives it back. *)
Lemma decode_encode_zero (s : bool) :
  F32.decode (F32.encode (S754_zero s)) = S754_zero s.
Proof. destruct s; vm_compute; reflexivity. Qed.

Lemma decode_encode_nan : F32.decode (F32.encode S754_nan) = S754_nan.
Proof. vm_compute. reflexivity. Qed.

Lemma is_zero_decode (a : float) :
  is_zero a -> exists s, F32.decode a = S754_zero s.
Proof. intros [->| ->]; eexists; vm_compute; reflexivity. Qed.

Lemma zero_or_nan_cases (a : float) :
  zero_or_nan a ->
  (exists s, F32.decode a = S754_zero s) \/ F32.decode a = S754_nan.
Proof.
  unfold zero_or_nan. destruct (F32.decode a); try contradiction; eauto.
Qed.

Lemma zero_or_nan_encode_zero (s : bool) :
  zero_or_nan (F32.encode (S754_zero s)).
Proof. unfold zero_or_nan. now rewrite decode_encode_zero. Qed.

Lemma zero_or_nan_encode_nan : zero_or_nan (F32.encode S754_nan).
Proof. unfold zero_or_nan. now rewrite decode_encode_nan. Qed.

Lemma is_zero_zero_or_nan (a : float) : is_zero a -> zero_or_nan a.
Proof.
  intros H. apply is_zero_decode in H as [s H]. unfold zero_or_nan.
  now rewrite H.
Qed.

Ltac zero_or_nan :=
  lazymatch goal with
  | |- zero_or_nan (F32.encode (S754_zero _)) => apply zero_or_nan_encode_zero
  | |- zero_or_nan (F32.encode S754_nan) => apply zero_or_nan_encode_nan
  end.

(** Products, sums, differences and square roots of zeros and NaNs. *)
Lemma mul_zero_or_nan_r (a b : float) :
  zero_or_nan b -> zero_or_nan (F32.mul a b).
Proof.
  intros H. unfold F32.mul.
  destruct (zero_or_nan_cases b H) as [[s ->]| ->];
    destruct (F32.decode a) as [s'|s'| |s' m e]; cbn [SFmul];
    zero_or_nan.
Qed.

Lemma mul_zero_or_nan_l (a b : float) :
  zero_or_nan a -> zero_or_nan (F32.mul a b).
Proof. rewrite mul_comm. apply mul_zero_or_nan_r. Qed.

Lemma add_zero_or_nan (a b : float) :
  zero_or_nan a -> zero_or_nan b -> zero_or_nan (F32.add a b).
Proof.
  intros Ha Hb. unfold F32.add.
  destruct (zero_or_nan_cases a Ha) as [[s ->]| ->];
    destruct (zero_or_nan_cases b Hb) as [[s' ->]| ->]; cbn [SFadd];
    try destruct s; try destruct s'; zero_or_nan.
Qed.

Lemma sub_zero_or_nan (a b : float) :
  zero_or_nan a -> zero_or_nan b -> zero_or_nan (F32.sub a b).
Proof.
  intros Ha Hb. unfold F32.sub.
  destruct (zero_or_nan_cases a Ha) as [[s ->]| ->];
    destruct (zero_or_nan_cases b Hb) as [[s' ->]| ->]; cbn [SFsub];
    try destruct s; try destruct s'; zero_or_nan.
Qed.

Lemma sqrtf_zero_or_nan (a : float) :
  zero_or_nan a -> zero_or_nan (F32.sqrtf a).
Proof.
  intros Ha. unfold F32.sqrtf.
  destruct (zero_or_nan_cases a Ha) as [[s ->]| ->]; cbn [SFsqrt];
    zero_or_nan.
Qed.

Lemma ltb_zero_or_nan (a : float) :
  zero_or_nan a -> F32.ltb a (#0)%f32 = false.
Proof.
  intros Ha. unfold F32.ltb.
  change (F32.decode (#0)%f32) with (S754_zero false).
  destruct (zero_or_nan_cases a Ha) as [[s ->]| ->]; reflexivity.
Qed.

(** A zero or a NaN over a zero or a NaN is a NaN. *)
Lemma div_zero_or_nan (a b : float) :
  zero_or_nan a -> zero_or_nan b -> is_nan (F32.div a b).
Proof.
  intros Ha Hb. unfold F32.div, is_nan.
  destruct (zero_or_nan_cases a Ha) as [[s ->]| ->];
    destruct (zero_or_nan_cases b Hb) as [[s' ->]| ->]; cbn [SFdiv];
    apply decode_encode_nan.
Qed.

(** A NaN operand gives a NaN. *)
Lemma mul_nan_r (a b : float) : is_nan b -> is_nan (F32.mul a b).
Proof.
  unfold is_nan, F32.mul. intros ->.
  destruct (F32.decode a); cbn [SFmul]; apply decode_encode_nan.
Qed.

Lemma mul_nan_l (a b : float) : is_nan a -> is_nan (F32.mul a b).
Proof. rewrite mul_comm. apply mul_nan_r. Qed.

Lemma add_nan_r (a b : float) : is_nan b -> is_nan (F32.add a b).
Proof.
  unfold is_nan, F32.add. intros ->.
  destruct (F32.decode a); cbn [SFadd]; apply decode_encode_nan.
Qed.

Lemma sub_nan_l (a b : float) : is_nan a -> is_nan (F32.sub a b).
Proof.
  unfold is_nan, F32.sub. intros ->.
  destruct (F32.decode b); cbn [SFsub]; apply decode_encode_nan.
Qed.

Lemma neg_mul_zero_or_nan (a b : float) :
  zero_or_nan b -> zero_or_nan (- (a * b))%f32.
Proof.
  intros H. unfold F32.mul.
  destruct (zero_or_nan_cases b H) as [[s ->]| ->];
    destruct (F32.decode a) as [s'|s'| |s' m e]; cbn [SFmul];
    try destruct s; try destruct s'; vm_compute; exact I.
Qed.

(** The intersection routine in terms of the quadratic. *)
Lemma ray_sphere_intersection_quadratic (r : ray_t) (s : sphere_t) :
  ray_sphere_intersection r s
  = if F32.ltb (Spec.discriminant r s) (#0)%f32 then None
    else Some (Spec.near_root r s).
Proof.
  unfold ray_sphere_intersection, Spec.near_root, Spec.discriminant,
    Spec.a, Spec.b, Spec.c, vec3_dot, vec3_sub.
  cbv zeta. cbn [x y z]. reflexivity.
Qed.

Lemma dot_zero_or_nan_r (u d : vec3_t) :
  all_zero d -> zero_or_nan (vec3_dot u d).
Proof.
  intros (Hx & Hy & Hz). unfold vec3_dot.
  apply add_zero_or_nan; [apply add_zero_or_nan|];
    apply mul_zero_or_nan_r; apply is_zero_zero_or_nan; assumption.
Qed.

(** Lookup in a map and in a flattened table of rows of one length. *)
Lemma lookup_map {A B} (g : A -> B) (l : list A) (k : nat) :
  map g l !! k = g <$> (l !! k).
Proof.
  revert k; induction l as [|a l IH]; intros [|k]; cbn; auto.
Qed.

Lemma lookup_flat_map_rows {A B} (g : A -> list B) (n : nat) (l : list A)
    (k m : nat) (a : A) :
  (forall a', length (g a') = n) -> l !! k = Some a -> (m < n)%nat ->
  flat_map g l !! (k * n + m)%nat = g a !! m.
Proof.
  intros Hn. revert k; induction l as [|a0 l IH]; intros k Hk Hm;
    [discriminate|].
  cbn [flat_map]. destruct k as [|k].
  - injection Hk as ->. cbn [Nat.mul Nat.add].
    apply lookup_app_l. rewrite Hn. lia.
  - cbn [lookup list_lookup] in Hk.
    rewrite lookup_app_r by (rewrite Hn; lia).
    rewrite Hn. replace (S k * n + m - n)%nat with (k * n + m)%nat by lia.
    now apply IH.
Qed.

Lemma length_flat_map_rows {A B} (g : A -> list B) (n : nat) (l : list A) :
  (forall a', length (g a') = n) ->
  length (flat_map g l) = (length l * n)%nat.
Proof.
  intros Hn. induction l as [|a0 l IH]; [reflexivity|].
  cbn [flat_map length]. rewrite length_app, Hn, IH. lia.
Qed.

Lemma decode_finite_mantissa (a : float) (s : bool) (m : positive) (e : Z) :
  F32.decode a = S754_finite s m e -> Zpos m < 2 ^ 24.
Proof.
  rewrite decode_fields. cbv zeta.
  pose proof (Z.mod_pos_bound a (2 ^ 23) ltac:(lia)) as Hm.
  destruct (_ =? 0).
  - destruct (a mod 2 ^ 23) as [|p|p] eqn:Em; try discriminate.
    intros [= _ <- _]. lia.
  - destruct (_ =? 255); [destruct (_ =? 0); discriminate|].
    destruct (a mod 2 ^ 23 + 8388608) as [|p|p] eqn:Em; try discriminate.
    intros [= _ <- _]. lia.
Qed.

Lemma to_uint8_0 : F32.to_uint8 (#0)%f32 = Some 0.
Proof. vm_compute. reflexivity. Qed.

Lemma to_uint8_255 : F32.to_uint8 (#255)%f32 = Some 255.
Proof. vm_compute. reflexivity. Qed.

Lemma decode_0 : F32.decode (#0)%f32 = S754_zero false.
Proof. vm_compute. reflexivity. Qed.

Lemma decode_255 : F32.decode (#255)%f32 = S754_finite false 16711680 (-16).
Proof. vm_compute. reflexivity. Qed.

(** A finite value that is not above 255 has an integer part of at most
    255. *)
Lemma truncate_le_255 (m : positive) (e : Z) :
  Zpos m < 2 ^ 24 ->
  SFltb (S754_finite false 16711680 (-16)) (S754_finite false m e) = false ->
  0 <= match e with
       | Zneg k => Z.shiftr (Zpos m) (Zpos k)
       | _ => Zpos m * 2 ^ e
       end <= 255.
Proof.
  intros Hm. unfold SFltb, SFcompare.
  destruct (Z.compare_spec (-16) e) as [<-|Hlt|Hgt]; try discriminate.
  - intros Hc. rewrite Z.shiftr_div_pow2 by lia.
    assert (Hle : (m <= 16711680)%positive).
    { destruct (Pos.compare_cont Eq 16711680 m) eqn:E; try discriminate.
      - apply Pos.compare_eq in E. subst m. reflexivity.
      - change (Pos.compare_cont Eq 16711680 m) with (16711680 ?= m)%positive
          in E.
        apply Pos.compare_gt_iff in E. now apply Pos.lt_le_incl. }
    clear Hc. change (2 ^ 16) with 65536. change (2 ^ 24) with 16777216 in Hm.
    assert (Hz : Zpos m <= 16711680) by exact Hle. clear Hle.
    split; [apply Z.div_pos; lia|].
    apply Z.div_le_upper_bound; lia.
  - intros _. destruct e as [|p|k]; try lia.
    rewrite Z.shiftr_div_pow2 by lia.
    assert (Hp : 2 ^ 17 <= 2 ^ Zpos k) by (apply Z.pow_le_mono_r; lia).
    assert (0 < 2 ^ Zpos k) by lia.
    split; [apply Z.div_pos; lia|].
    assert (Zpos m / 2 ^ Zpos k < 128); [|lia].
    apply Z.div_lt_upper_bound; [lia|].
    change (2 ^ 24) with (2 ^ 17 * 128) in Hm. nia.
Qed.

Lemma sub_self_zero_or_nan (a : float) : zero_or_nan (F32.sub a a).
Proof.
  unfold F32.sub.
  destruct (F32.decode a) as [s|s| |s m e]; cbn [SFsub].
  - destruct s; zero_or_nan.
  - destruct s; zero_or_nan.
  - zero_or_nan.
  - rewrite Z.sub_diag. cbn [binary_normalize]. zero_or_nan.
Qed.

Lemma infinity_or_nan_cases (a : float) :
  infinity_or_nan a ->
  (exists s, F32.decode a = S754_infinity s) \/ F32.decode a = S754_nan.
Proof.
  unfold infinity_or_nan. destruct (F32.decode a); try contradiction; eauto.
Qed.

Lemma decode_encode_infinity (s : bool) :
  F32.decode (F32.encode (S754_infinity s)) = S754_infinity s.
Proof. destruct s; vm_compute; reflexivity. Qed.

(** One over a zero or a NaN. *)
Lemma div_one_zero_or_nan (b : float) :
  zero_or_nan b -> infinity_or_nan (#1 / b)%f32.
Proof.
  intros Hb. unfold F32.div, infinity_or_nan.
  replace (F32.decode (#1)%f32) with (S754_finite false 8388608 (-23))
    by (vm_compute; reflexivity).
  destruct (zero_or_nan_cases b Hb) as [[s ->]| ->]; cbn [SFdiv].
  - rewrite decode_encode_infinity. exact I.
  - rewrite decode_encode_nan. exact I.
Qed.

Lemma mul_zero_or_nan_infinity_or_nan (a b : float) :
  zero_or_nan a -> infinity_or_nan b -> is_nan (F32.mul a b).
Proof.
  intros Ha Hb. unfold F32.mul, is_nan.
  destruct (zero_or_nan_cases a Ha) as [[s ->]| ->];
    destruct (infinity_or_nan_cases b Hb) as [[s' ->]| ->]; cbn [SFmul];
    apply decode_encode_nan.
Qed.

Lemma add_nan_l (a b : float) : is_nan a -> is_nan (F32.add a b).
Proof. rewrite add_comm. apply add_nan_r. Qed.

Lemma div_nan_l (a b : float) : is_nan a -> is_nan (F32.div a b).
Proof.
  unfold is_nan, F32.div. intros ->.
  destruct (F32.decode b); cbn [SFdiv]; apply decode_encode_nan.
Qed.

Lemma clampf_nan (value min max : float) :
  is_nan value -> clampf value min max = value.
Proof.
  unfold is_nan, clampf, F32.gtb, F32.ltb. intros ->.
  cbn [SFltb SFcompare].
  destruct (F32.decode max); reflexivity.
Qed.

Lemma dot_nan_r (u d : vec3_t) : all_nan d -> is_nan (vec3_dot u d).
Proof.
  intros (Hx & Hy & Hz). unfold vec3_dot.
  apply add_nan_r. apply mul_nan_r. exact Hz.
Qed.

(** The diffuse colour is the colour of the light scaled, or zero. *)
Lemma shading_color_form (powf : float -> float -> float)
    (pl : point_light_t) (p n v : vec3_t) (h : float) :
  (exists k, color (blinn_phong_shading powf pl p n v h)
             = vec3_scale (light_color pl) k) \/
  color (blinn_phong_shading powf pl p n v h)
  = mk_vec3 (#0)%f32 (#0)%f32 (#0)%f32.
Proof.
  unfold blinn_phong_shading.
  destruct (F32.ltb (power pl) (#0)%f32); [right; reflexivity|].
  left. cbv zeta. cbn [color]. eexists. reflexivity.
Qed.

(** The diffuse colour under the light of the scene has three equal
    components. *)
Lemma shading_light1_grey (powf : float -> float -> float)
    (p n v : vec3_t) (h : float) :
  let c := color (blinn_phong_shading powf light1 p n v h) in
  x c = y c /\ y c = z c.
Proof.
  cbv zeta.
  destruct (shading_color_form powf light1 p n v h) as [[k ->]| ->].
  - unfold vec3_scale, light1. cbn [light_color x y z]. split; reflexivity.
  - cbn [x y z]. split; reflexivity.
Qed.

End FloatMore.

Section RenderMoreProperties.
Import F32Class.

(** X10: when the upper bound is not below the lower bound, [clampf]
    returns a value that is neither below the lower bound nor above the
    upper bound, whatever it is given, and clamping a second time changes
    nothing. *)
Theorem clampf_within_bounds (value min max : float) :
  F32.ltb max min = false ->
  F32.ltb (clampf value min max) min = false /\
  F32.gtb (clampf value min max) max = false /\
  clampf (clampf value min max) min max = clampf value min max.
Proof.
  intros Hb.
  assert (H : F32.ltb (clampf value min max) min = false /\
              F32.gtb (clampf value min max) max = false).
  { unfold clampf, F32.gtb.
    destruct (F32.ltb value min) eqn:E1.
    - split; [apply SFltb_irrefl|exact Hb].
    - unfold F32.gtb. destruct (SFltb (F32.decode max) (F32.decode value)) eqn:E2.
      + split; [exact Hb|apply SFltb_irrefl].
      + split; [exact E1|exact E2]. }
  destruct H as [H1 H2]. split; [exact H1|]. split; [exact H2|].
  unfold clampf at 1. now rewrite H1, H2.
Qed.

Lemma clampf_within_bounds_witness :
  F32.ltb (clampf (#300) (#0) (#255))%f32 (#0)%f32 = false /\
  F32.gtb (clampf (#300) (#0) (#255))%f32 (#255)%f32 = false /\
  (clampf (clampf (#300) (#0) (#255)) (#0) (#255)
   = clampf (#300) (#0) (#255))%f32.
Proof. apply clampf_within_bounds. vm_compute. reflexivity. Defined.

(** X11: the dot product and the sum of two vectors compute the same
    value when the two operands are exchanged: the two results are the same
    zero, infinity or finite number, bit for bit, or they are both NaNs
    (the payload of a NaN is not compared). *)
Theorem vec3_dot_add_symmetric (a b : vec3_t) :
  same_value (vec3_dot a b) (vec3_dot b a) /\
  same_value (x (vec3_add a b)) (x (vec3_add b a)) /\
  same_value (y (vec3_add a b)) (y (vec3_add b a)) /\
  same_value (z (vec3_add a b)) (z (vec3_add b a)).
Proof.
  assert (R : forall u : float, same_value u u) by (intros u; now split).
  assert (Ed : vec3_dot a b = vec3_dot b a).
  { unfold vec3_dot.
    now rewrite (mul_comm (x a)), (mul_comm (y a)), (mul_comm (z a)). }
  unfold vec3_add. cbn [x y z].
  rewrite Ed, (add_comm (x a)), (add_comm (y a)), (add_comm (z a)).
  split; [apply R|]. split; [apply R|]. split; apply R.
Qed.

(** X12: a ray whose direction is the zero vector is never reported as a
    miss: whatever the origin and the sphere are, the routine reports a hit
    whose distance is a NaN, and every component of the position and of the
    normal it derives is a NaN. *)
Theorem zero_direction_hits_with_nan (r : ray_t) (s : sphere_t) :
  all_zero (direction r) ->
  exists t normal position,
    ray_sphere_intersection_with_normal_and_position r s
    = Some (t, normal, position) /\
    is_nan t /\ all_nan position /\ all_nan normal.
Proof.
  intros Hd.
  assert (Ha : zero_or_nan (Spec.a r))
    by (unfold Spec.a; apply dot_zero_or_nan_r; exact Hd).
  assert (Hdot : zero_or_nan
            (vec3_dot (vec3_sub (origin r) (center s)) (direction r)))
    by (apply dot_zero_or_nan_r; exact Hd).
  assert (Hb : zero_or_nan (Spec.b r s))
    by (unfold Spec.b; apply mul_zero_or_nan_r; exact Hdot).
  assert (Hdisc : zero_or_nan (Spec.discriminant r s)).
  { unfold Spec.discriminant. apply sub_zero_or_nan.
    - apply mul_zero_or_nan_l; exact Hb.
    - apply mul_zero_or_nan_l. apply mul_zero_or_nan_r; exact Ha. }
  assert (Ht : is_nan (Spec.near_root r s)).
  { unfold Spec.near_root. apply div_zero_or_nan.
    - apply sub_zero_or_nan; [|apply sqrtf_zero_or_nan; exact Hdisc].
      unfold Spec.b. apply neg_mul_zero_or_nan; exact Hdot.
    - apply mul_zero_or_nan_r; exact Ha. }
  unfold ray_sphere_intersection_with_normal_and_position.
  rewrite ray_sphere_intersection_quadratic, (ltb_zero_or_nan _ Hdisc).
  cbv zeta. do 3 eexists. split; [reflexivity|]. split; [exact Ht|].
  assert (Hp : all_nan (vec3_add (origin r)
                          (vec3_scale (direction r) (Spec.near_root r s)))).
  { unfold all_nan, vec3_add, vec3_scale. cbn [x y z].
    split; [|split]; apply add_nan_r; apply mul_nan_r; exact Ht. }
  split; [exact Hp|].
  destruct Hp as (Hx & Hy & Hz).
  unfold all_nan, vec3_scale, vec3_sub. cbn [x y z].
  split; [|split]; apply mul_nan_l; apply sub_nan_l; assumption.
Qed.

Lemma zero_direction_hits_with_nan_witness :
  exists t normal position,
    ray_sphere_intersection_with_normal_and_position
      (mk_ray (mk_vec3 0 0 0) (mk_vec3 0 0 0)) sphere
    = Some (t, normal, position) /\
    is_nan t /\ all_nan position /\ all_nan normal.
Proof.
  apply zero_direction_hits_with_nan. unfold all_zero, is_zero. cbn. auto.
Defined.

(** X13: normalizing a vector whose three components are zeros gives a
    vector whose three components are NaNs: the division by the zero length
    is not guarded. *)
Theorem normalized_zero_is_nan (v : vec3_t) :
  all_zero v -> all_nan (vec3_normalized v).
Proof.
  intros Hv. pose proof Hv as (Hx & Hy & Hz).
  assert (Hl : zero_or_nan (vec3_length v)).
  { unfold vec3_length. apply sqrtf_zero_or_nan.
    change (vec3_length_squared v) with (vec3_dot v v).
    apply dot_zero_or_nan_r; exact Hv. }
  unfold all_nan, vec3_normalized. cbv zeta. cbn [x y z].
  split; [|split]; (apply div_zero_or_nan;
    [apply is_zero_zero_or_nan; assumption|exact Hl]).
Qed.

Lemma normalized_zero_is_nan_witness :
  all_nan (vec3_normalized (mk_vec3 0 0x80000000 0)).
Proof.
  apply normalized_zero_is_nan. unfold all_zero, is_zero. cbn. auto.
Defined.

(** X21: the clamp to [0, 255] makes the conversion of a channel to
    [uint8_t] defined for every value that is not a NaN, infinities
    included, and the byte is between 0 and 255; a NaN passes through the
    clamp and reaches the conversion, which is then undefined. *)
Theorem clamped_channel_conversion (value : float) :
  match F32.decode value with
  | S754_nan =>
      clampf value (#0)%f32 (#255)%f32 = value /\
      F32.to_uint8 (clampf value (#0)%f32 (#255)%f32) = None
  | _ =>
      exists q, F32.to_uint8 (clampf value (#0)%f32 (#255)%f32) = Some q /\
                0 <= q <= 255
  end.
Proof.
  unfold clampf, F32.gtb, F32.ltb. rewrite decode_0, decode_255.
  destruct (F32.decode value) as [s|s| |s m e] eqn:E.
  - cbn [SFltb SFcompare]. destruct s; cbn.
    + exists 0. unfold F32.to_uint8, F32.truncate. rewrite E. split; [reflexivity|lia].
    + exists 0. unfold F32.to_uint8, F32.truncate. rewrite E. split; [reflexivity|lia].
  - destruct s; cbn [SFltb SFcompare].
    + exists 0. split; [apply to_uint8_0|lia].
    + exists 255. split; [apply to_uint8_255|lia].
  - cbn [SFltb SFcompare]. split; [reflexivity|].
    unfold F32.to_uint8, F32.truncate. now rewrite E.
  - pose proof (decode_finite_mantissa _ _ _ _ E) as Hm.
    destruct s.
    + exists 0. split; [apply to_uint8_0|lia].
    + replace (SFltb (S754_finite false m e) (S754_zero false)) with false
        by reflexivity.
      destruct (SFltb (S754_finite false 16711680 (-16))
                      (S754_finite false m e)) eqn:Hg.
      * exists 255. split; [apply to_uint8_255|lia].
      * pose proof (truncate_le_255 m e Hm Hg) as Hq.
        eexists. unfold F32.to_uint8, F32.truncate. rewrite E.
        split; [|exact Hq].
        destruct Hq as [H0 H255].
        apply Z.leb_le in H0. apply Z.leb_le in H255.
        rewrite H0, H255. reflexivity.
Qed.

(** X14: one pass of the render loop makes exactly one call of
    [nano_gui_draw_pixel] per pixel of the 640 by 480 window, column by
    column: the call of pixel [(i, j)] is the one of rank [i * 480 + j]. *)
Theorem render_frame_order (powf : float -> float -> float) (i j : Z) :
  0 <= i < width -> 0 <= j < height ->
  render_frame powf !! Z.to_nat (i * height + j)
  = Some (render_pixel powf i j) /\
  length (render_frame powf) = Z.to_nat (width * height).
Proof.
  intros Hi Hj. unfold render_frame, width, height in *.
  assert (Hrow : forall a' : Z,
            length (map (fun j0 => render_pixel powf a' j0)
                        (map Z.of_nat (seq 0 (Z.to_nat 480)))) = 480%nat).
  { intros a'. rewrite !length_map, length_seq. reflexivity. }
  split.
  - replace (Z.to_nat (i * 480 + j))
      with (Z.to_nat i * 480 + Z.to_nat j)%nat by lia.
    rewrite (lookup_flat_map_rows _ 480 _ _ _ i Hrow).
    + rewrite !lookup_map, lookup_seq_lt by lia. cbn. f_equal. f_equal. lia.
    + rewrite lookup_map, lookup_seq_lt by lia. cbn. f_equal. lia.
    + lia.
  - rewrite (length_flat_map_rows _ 480 _ Hrow), length_map, length_seq.
    lia.
Qed.

Lemma render_frame_order_witness :
  render_frame F32.powf_integral !! Z.to_nat (199 * height + 173)
  = Some (render_pixel F32.powf_integral 199 173) /\
  length (render_frame F32.powf_integral) = Z.to_nat (width * height).
Proof. apply render_frame_order; unfold width, height; lia. Defined.

(** X19: shading a surface point that is the position of the light gives
    a diffuse colour whose three components are NaNs, for every light whose
    power is not below zero: the distance is zero and the division by it is
    not guarded. *)
Theorem shading_at_light_is_nan (powf : float -> float -> float)
    (pl : point_light_t) (surface_normal view_direction : vec3_t)
    (specular_hardness : float) :
  F32.ltb (power pl) (#0)%f32 = false ->
  all_nan (color (blinn_phong_shading powf pl (position pl) surface_normal
                    view_direction specular_hardness)).
Proof.
  intros Hp. unfold blinn_phong_shading. rewrite Hp. cbv zeta. cbn [color].
  set (ld := vec3_sub (position pl) (position pl)).
  assert (Hld : zero_or_nan (x ld) /\ zero_or_nan (y ld) /\ zero_or_nan (z ld))
    by (unfold ld, vec3_sub; cbn [x y z];
        split; [|split]; apply sub_self_zero_or_nan).
  destruct Hld as (Hx & Hy & Hz).
  assert (Hd2 : zero_or_nan (vec3_length_squared ld)).
  { unfold vec3_length_squared.
    apply add_zero_or_nan; [apply add_zero_or_nan|];
      apply mul_zero_or_nan_r; assumption. }
  assert (Hinv : infinity_or_nan (#1 / F32.sqrtf (vec3_length_squared ld))%f32)
    by (apply div_one_zero_or_nan; apply sqrtf_zero_or_nan; exact Hd2).
  set (ldn := vec3_scale ld (#1 / F32.sqrtf (vec3_length_squared ld))%f32).
  assert (Hldn : all_nan ldn).
  { unfold ldn, all_nan, vec3_scale. cbn [x y z].
    split; [|split]; apply mul_zero_or_nan_infinity_or_nan; assumption. }
  assert (Hn : is_nan (vec3_dot surface_normal ldn))
    by (apply dot_nan_r; exact Hldn).
  rewrite (clampf_nan _ _ _ Hn).
  unfold all_nan, vec3_scale. cbn [x y z].
  split; [|split]; apply mul_nan_r; apply div_nan_l; apply mul_nan_l; exact Hn.
Qed.

Lemma shading_at_light_is_nan_witness :
  all_nan (color (blinn_phong_shading F32.powf_integral light1
                    (position light1) (mk_vec3 0 0 (#1)%f32)
                    (mk_vec3 0 0 (#(-1))%f32) (#20)%f32)).
Proof. apply shading_at_light_is_nan. vm_compute. reflexivity. Defined.

(** X20: every pixel the render loop writes is grey, at the coordinates of
    the pixel: the call of pixel [(i, j)] has [i] and [j] as coordinates
    and the same value in the red, green and blue channels. *)
Theorem render_pixel_grey (powf : float -> float -> float) (i j : Z)
    (d : draw_pixel) :
  render_pixel powf i j = Some d ->
  px d = i /\ py d = j /\ red d = green d /\ green d = blue d.
Proof.
  rewrite render_pixel_channels. unfold pixel_lighting.
  destruct (ray_sphere_intersection_with_normal_and_position _ _)
    as [[[depth normal] position]|].
  - cbv zeta.
    destruct (shading_light1_grey powf position normal
                (direction (camera_ray i j)) (#20)%f32) as [Hxy Hyz].
    cbv zeta in Hxy, Hyz. unfold channels. rewrite Hxy, Hyz.
    destruct (F32.to_uint8 _) as [q|]; [|discriminate].
    intros H; apply (inj Some) in H; subst d. cbn. auto.
  - intros H; apply (inj Some) in H; subst d. cbn. auto.
Qed.

Lemma render_pixel_grey_witness :
  px (mk_draw 199 173 77 77 77) = 199 /\ py (mk_draw 199 173 77 77 77) = 173 /\
  red (mk_draw 199 173 77 77 77) = green (mk_draw 199 173 77 77 77) /\
  green (mk_draw 199 173 77 77 77) = blue (mk_draw 199 173 77 77 77).
Proof.
  apply (render_pixel_grey F32.powf_integral 199 173).
  vm_compute. reflexivity.
Defined.

End RenderMoreProperties.

(** * The program as a whole *)

Section ProgramProperties.
Import Loader Dedup Program.

(** X15: what a run of the program does is decided by the argument count,
    by whether the file opens, by the results of the three allocations and
    by the triangle count and the length of the file: with an argument
    count other than 2 it prints the usage line and returns 0 without
    looking at the file; when the file does not open it prints "Failed to
    open file" and returns 1; when the loader goes through a pointer that
    [malloc] returned null the run is undefined; when a read fails it
    prints the one message of that failure and returns 1 without drawing;
    otherwise it prints nothing, draws one full frame per successful poll
    of the events and returns 0.  The frames do not depend on the mesh. *)
Theorem main_outcome (powf : float -> float -> float) (m : Alloc.mallocs)
    (argc : Z) (fopen_result : option FILE) (polls : nat) :
  main powf m argc fopen_result polls
  = if negb (argc =? 2) then Exit 0 "Expected arguments: path/to/mesh.stl"
    else match fopen_result with
         | None => Exit 1 "Failed to open file"
         | Some f =>
             if Alloc.null_access m f then Undefined
             else match read_failure f with
                  | Some message => Exit 1 message
                  | None => Ok (replicate polls (render_frame powf))
                  end
         end.
Proof.
  unfold main. destruct (negb (argc =? 2)); [reflexivity|].
  destruct fopen_result as [f|]; [|reflexivity].
  pose proof (alloc_load_outcome m f) as H.
  destruct (Alloc.null_access m f); [now rewrite H|].
  destruct (read_failure f) as [message|].
  - now rewrite H.
  - destruct H as [st ->]. reflexivity.
Qed.

End ProgramProperties.
